(** * Letter-counting dataset generator: model and specification

    A shallow embedding of [generate-letter-counting-dataset.py] and the
    properties of its sampler and renderer.

    Conventions of the embedding.
    - A Python [str] is a [string]; a character is an [ascii].  On this
      repertoire [str.lower] acts character by character and sends
      [A]-[Z] to [a]-[z].  The two non-ASCII characters of the output
      templates (the dash of "Step 1" and the arrow of the position
      lines) are held as their UTF-8 bytes.
    - Beyond ASCII [str.lower] is not character by character.  What the
      sampler and the renderer do on such words is followed in the
      module [Unicode], where a [str] is the list of its code points.
    - Python [int]s that only count upwards from a literal ([count], the
      position index) are [nat]; [n_samples] and [seed], which come from
      the command line, are [Z].
    - Exceptions are values of [exn]; a computation that may raise has a
      result in [exn + A].
    - [random.Random] is an interface ([RandomGen]); the iteration order
      of a [set], which CPython derives from per-process string hashes,
      is a component of the interpreter process ([process]).
    - What [main] prints and its calls into the [datasets] library are
      the events of a trace ([event]); a library call may raise. *)

From Stdlib Require Import Ascii.
From stdpp Require Import base decidable option list numbers strings pretty gmap sorting.

Local Open Scope Z_scope.
Local Open Scope nat_scope.
Local Open Scope stdpp_scope.

(** ** Python strings *)

Module Str.

Definition chars (s : string) : list ascii := String.list_ascii_of_string s.

(** The one-character string [c]. *)
Definition str1 (c : ascii) : string := String c EmptyString.

(** The line feed and the double quote. *)
Definition nl : string := str1 (ascii_of_nat 10).
Definition dq : string := str1 (ascii_of_nat 34).

Definition code (c : ascii) : nat := nat_of_ascii c.

Definition isupper (c : ascii) : bool :=
  bool_decide (65 ≤ code c ≤ 90).
Definition islower (c : ascii) : bool :=
  bool_decide (97 ≤ code c ≤ 122).
Definition isdigit (c : ascii) : bool :=
  bool_decide (48 ≤ code c ≤ 57).
(** [str.isspace] below U+0080: TAB, LF, VT, FF, CR, FS, GS, RS, US, SP. *)
Definition isspace (c : ascii) : bool :=
  bool_decide (9 ≤ code c ≤ 13) || bool_decide (28 ≤ code c ≤ 32).

Definition lower_char (c : ascii) : ascii :=
  if isupper c then ascii_of_nat (code c + 32) else c.

(** [s.lower()] *)
Fixpoint lower (s : string) : string :=
  match s with
  | EmptyString => EmptyString
  | String c s' => String (lower_char c) (lower s')
  end.

(** [sep.join(ls)] *)
Definition join (sep : string) (ls : list string) : string :=
  String.concat sep ls.

Fixpoint lstrip (s : string) : string :=
  match s with
  | EmptyString => EmptyString
  | String c s' => if isspace c then lstrip s' else s
  end.
Definition rstrip (s : string) : string :=
  String.rev (lstrip (String.rev s)).
(** [s.strip()] *)
Definition strip (s : string) : string := rstrip (lstrip s).

(** [enumerate(l, start)] *)
Fixpoint enumerate {A} (start : nat) (l : list A) : list (nat * A) :=
  match l with
  | [] => []
  | x :: l' => (start, x) :: enumerate (S start) l'
  end.

(** [l * k] for a list [l] and an [int] [k]: empty when [k <= 0]. *)
Definition repeat_list {A} (l : list A) (k : Z) : list A :=
  mjoin (replicate (Z.to_nat k) l).

(** [l[:n]] for an [int] [n]: a negative bound counts from the end. *)
Definition slice_to {A} (l : list A) (n : Z) : list A :=
  if decide (0 ≤ n)%Z then take (Z.to_nat n) l
  else take (Z.to_nat (Z.of_nat (length l) + n)) l.

End Str.
Import Str.

(** ** Exceptions *)

Inductive exn : Type :=
  | ValueError (msg : string)
  | ZeroDivisionError
  | IndexError.

Definition result (A : Type) : Type := exn + A.
Definition Ok {A} (a : A) : result A := inr a.
Definition Err {A} (e : exn) : result A := inl e.

(** ** The interpreter process and [random.Random]

    [list(set(s))] enumerates the distinct characters of [s] in an order
    fixed by the interpreter process (CPython salts string hashes per
    process), so the order is a component of the process. *)

Record process : Type := {
  set_order : gset ascii → list ascii;
  set_order_perm : ∀ X, set_order X ≡ₚ elements X
}.

(** [random.Random]: [seeded s] is [random.Random(s)]; [next_float]
    returns the numerator [k] of the float [k / 2^53] that [random()]
    yields; [randbelow n] is [_randbelow(n)], in [0, n) for [n > 0]. *)
Class RandomGen (G : Type) : Type := {
  seeded : Z → G;
  next_float : G → N * G;
  randbelow : nat → G → nat * G;
  randbelow_lt : ∀ n g, 0 < n → (randbelow n g).1 < n
}.

(** The double nearest to [0.8] is [7205759403792794 / 2^53], so
    [random() < 0.8] compares numerators. *)
Definition lt_0_8 (k : N) : bool := (k <? 7205759403792794)%N.

Section Rand.
Context {G : Type} `{!RandomGen G}.

(** Computations that read the generator and may raise. *)
Definition Rand (A : Type) : Type := G → result (A * G).

#[export] Instance rand_ret : MRet Rand := λ A a g, Ok (a, g).
#[export] Instance rand_bind : MBind Rand := λ A B f m g,
  match m g with
  | inl e => inl e
  | inr (a, g') => f a g'
  end.

(** The value of a computation run from the state [g]. *)
Definition eval {A} (m : Rand A) (g : G) : result A :=
  match m g with
  | inl e => inl e
  | inr (a, _) => inr a
  end.

Definition raise {A} (e : exn) : Rand A := λ _, Err e.
Definition random : Rand N := λ g, Ok (next_float g).
Definition below (n : nat) : Rand nat := λ g, Ok (randbelow n g).

(** [x[i], x[j] = x[j], x[i]].  Both indices are in range whenever
    [shuffle] calls it, since [randbelow (i + 1)] is at most [i]. *)
Definition swap {A} (x : list A) (i j : nat) : list A :=
  match x !! i, x !! j with
  | Some a, Some b => <[j:=a]> (<[i:=b]> x)
  | _, _ => x
  end.

(** [rng.shuffle(x)]: for [i] from [len(x) - 1] down to [1], exchange
    [x[i]] with [x[randbelow(i + 1)]]. *)
Fixpoint shuffle_from {A} (i : nat) (x : list A) : Rand (list A) :=
  match i with
  | 0 => mret x
  | S i' => j ← below (S i); shuffle_from i' (swap x i j)
  end.
Definition shuffle {A} (x : list A) : Rand (list A) :=
  shuffle_from (length x - 1) x.

(** [rng.choice(seq)] *)
Definition choice {A} (seq : list A) : Rand A :=
  if decide (length seq = 0) then raise IndexError
  else j ← below (length seq);
       match seq !! j with
       | Some a => mret a
       | None => raise IndexError
       end.
End Rand.
Arguments Rand : clear implicits.

(** ** Core generation logic *)

(** ["-".join(list(word))] *)
Definition spell_out (word : string) : string :=
  join "-" (str1 <$> chars word).

(** The two f-strings of the loop body and the one of the answer. *)
Definition match_line (i : nat) (char : ascii) (count : nat) : string :=
  "- Position " +:+ pretty i +:+ ": " +:+ str1 char
    +:+ " → MATCH (count = " +:+ pretty count +:+ ")".

Definition other_line (i : nat) (char : ascii) (letter : string)
    (count : nat) : string :=
  "- Position " +:+ pretty i +:+ ": " +:+ str1 char
    +:+ " → not " +:+ letter +:+ " (count = " +:+ pretty count +:+ ")".

Definition answer_line (letter : string) (count : nat) (word : string)
    : string :=
  nl +:+ "**Answer: " +:+ dq +:+ letter +:+ dq +:+ " appears "
    +:+ pretty count +:+ " time"
    +:+ (if decide (count ≠ 1) then "s" else EmptyString)
    +:+ " in " +:+ dq +:+ word +:+ dq +:+ ".**".

(** The two header lines. *)
Definition step1_line (word : string) : string :=
  "Step 1 — Spell it out: " +:+ spell_out word +:+ nl.
Definition step2_line : string := "Step 2 — Check each letter:".

(** One iteration of [for i, char in enumerate(word, start=1)] on the
    loop state [(count, lines)]. *)
Definition check_position (letter target : string)
    (st : nat * list string) (ic : nat * ascii) : nat * list string :=
  let '(count, lines) := st in
  let '(i, char) := ic in
  if decide (lower (str1 char) = target) then
    let count := count + 1 in
    (count, lines ++ [match_line i char count])
  else
    (count, lines ++ [other_line i char letter count]).

(** The list [lines] of [build_assistant_response] when it is joined. *)
Definition response_lines (word letter : string) : list string :=
  let lines := [] in
  let lines := lines ++ [step1_line word] in
  let lines := lines ++ [step2_line] in
  let count := 0 in
  let target := lower letter in
  let '(count, lines) :=
    foldl (check_position letter target) (count, lines)
          (enumerate 1 (chars word)) in
  lines ++ [answer_line letter count word].

Definition build_assistant_response (word letter : string) : string :=
  join nl (response_lines word letter).

Record message : Type := { role : string; content : string }.
Record sample : Type := { messages : list message }.

Definition build_sample (word letter : string) : sample :=
  let user_message :=
    "How many times does the letter " +:+ dq +:+ letter +:+ dq
      +:+ " appear in " +:+ dq +:+ word +:+ dq +:+ "?" in
  let assistant_message := build_assistant_response word letter in
  {| messages := [ {| role := "user"; content := user_message |};
                   {| role := "assistant"; content := assistant_message |} ] |}.

(** ** Sampling strategy *)

Section Sampling.
Context {G : Type} `{!RandomGen G} (py : process).

Definition pick_letter_for_word (word : string) : Rand G string :=
  r ← random;
  if lt_0_8 r then
    choice (str1 <$> set_order py (list_to_set (chars (lower word))))
  else
    choice (str1 <$> chars "abcdefghijklmnopqrstuvwxyz").

(** The comprehension of [generate_samples]: one letter draw per word
    of the pool, left to right ([tqdm] only reports progress). *)
Definition draw_sample (word : string) : Rand G sample :=
  letter ← pick_letter_for_word word;
  mret (build_sample word letter).

Definition draw_samples (pool : list string) : Rand G (list sample) :=
  mapM draw_sample pool.

Definition generate_samples (words : list string) (n_samples seed : Z)
    : result (list sample) :=
  let rng := seeded seed in
  if decide (length words = 0) then Err ZeroDivisionError else
  let word_pool :=
    repeat_list words (n_samples `div` Z.of_nat (length words) + 1) in
  eval (word_pool ← shuffle word_pool;
        draw_samples (slice_to word_pool n_samples)) rng.

(** The [(word, letter)] arguments that [generate_samples] passes to
    [build_sample], in order. *)
Definition draw_pair (word : string) : Rand G (string * string) :=
  letter ← pick_letter_for_word word;
  mret (word, letter).

Definition draw_pairs (pool : list string)
    : Rand G (list (string * string)) :=
  mapM draw_pair pool.

Definition generate_pairs (words : list string) (n_samples seed : Z)
    : result (list (string * string)) :=
  let rng := seeded seed in
  if decide (length words = 0) then Err ZeroDivisionError else
  let word_pool :=
    repeat_list words (n_samples `div` Z.of_nat (length words) + 1) in
  eval (word_pool ← shuffle word_pool;
        draw_pairs (slice_to word_pool n_samples)) rng.
End Sampling.

(** ** I/O helpers and entry point *)

(** The body of [load_words(path)] once the file is open: [file] lists
    the lines that iterating it yields.  [load_words_file] below adds
    the opening of the file. *)
Definition load_words (path : string) (file : list string)
    : result (list string) :=
  let words := strip <$> filter (λ line, strip line ≠ EmptyString) file in
  if decide (words = []) then
    Err (ValueError ("No words found in " +:+ path))
  else
    let words :=
      filter (λ word, 3 ≤ String.length word ∧ String.length word ≤ 20)
             words in
    Ok words.

(** The samples that [main] hands to [push_to_hub], given the lines of
    a words file that could be read.  [main_effects] below is the whole
    of [main], with what it prints and the file that cannot be read. *)
Definition main {G : Type} `{!RandomGen G} (py : process)
    (path : string) (file : list string) (n_samples seed : Z)
    : result (list sample) :=
  match load_words path file with
  | inl e => Err e
  | inr words => generate_samples py words n_samples seed
  end.

(** ** Reading a position line back

    What a reader sees on a position line: the index after "Position",
    the character after the colon, whether the line is labelled MATCH,
    and the number inside "(count = ...)" at its end. *)

Module Reader.

Record shown : Type := {
  shown_index : nat;
  shown_char : ascii;
  shown_match : bool;
  shown_count : nat
}.

Definition digit_value (c : ascii) : N := N.of_nat (code c - 48).

Definition read_digits (ds : list ascii) : N :=
  foldl (λ a d, 10 * a + digit_value d)%N 0%N ds.

Definition read_nat (ds : list ascii) : option nat :=
  if decide (ds ≠ [] ∧ Forall (λ c, isdigit c) ds)
  then Some (N.to_nat (read_digits ds)) else None.

Fixpoint span_digits (l : list ascii) : list ascii * list ascii :=
  match l with
  | [] => ([], [])
  | c :: l' =>
      if isdigit c then let '(ds, r) := span_digits l' in (c :: ds, r)
      else ([], l)
  end.

Definition expect (p l : list ascii) : option (list ascii) :=
  if decide (take (length p) l = p) then Some (drop (length p) l) else None.

Definition read_position_chars (l : list ascii) : option shown :=
  l ← expect (chars "- Position ") l;
  let '(ds, l) := span_digits l in
  i ← read_nat ds;
  l ← expect (chars ": ") l;
  match l with
  | [] => None
  | c :: l =>
      l ← expect (chars " → ") l;
      let labelled := bool_decide (take 5 l = chars "MATCH") in
      r ← expect (chars ")") (reverse l);
      let '(ds, r) := span_digits r in
      k ← read_nat (reverse ds);
      _ ← expect (reverse (chars " (count = ")) r;
      Some {| shown_index := i; shown_char := c;
              shown_match := labelled; shown_count := k |}
  end.

Definition read_position_line (line : string) : option shown :=
  read_position_chars (chars line).

End Reader.
Import Reader.

(** What a reader of the answer to the question about [letter] takes as
    its total: the number written between ["<letter>" appears] and
    [time]. *)
Definition read_answer_total (letter answer : string) : option nat :=
  l ← expect (chars (nl +:+ "**Answer: " +:+ dq +:+ letter +:+ dq
                       +:+ " appears "))
             (chars answer);
  let '(ds, l) := span_digits l in
  total ← read_nat ds;
  _ ← expect (chars " time") l;
  Some total.

(** ** Specification vocabulary *)

(** [c] is an occurrence of [letter], case-insensitively. *)
Definition occurs (letter : string) (c : ascii) : Prop :=
  lower (str1 c) = lower letter.

#[export] Instance occurs_dec letter c : Decision (occurs letter c).
Proof. unfold occurs. apply _. Defined.

(** The number of case-insensitive occurrences of [letter] in [word]. *)
Definition occurrences (letter word : string) : nat :=
  length (filter (occurs letter) (chars word)).

(** The lines of a response between its two headers and its answer. *)
Definition position_lines (word letter : string) : list string :=
  let lines := response_lines word letter in
  take (length lines - 3) (drop 2 lines).

(** How often [w] occurs in the list [l]. *)
Definition count_of (w : string) (l : list string) : nat :=
  length (filter (λ x, x = w) l).

(** The position lines of a response, as a reader sees them. *)
Definition shown_lines (word letter : string) : option (list shown) :=
  mapM read_position_line (position_lines word letter).

(** The position lines the loop appends, described by recursion on the
    characters still to check: [i] is the next index, [count] the
    running count so far. *)
Fixpoint trace_lines (letter : string) (i count : nat) (cs : list ascii)
    : list string :=
  match cs with
  | [] => []
  | c :: cs' =>
      if decide (occurs letter c)
      then match_line i c (S count) :: trace_lines letter (S i) (S count) cs'
      else other_line i c letter count :: trace_lines letter (S i) count cs'
  end.

(** What each line of a trace shows. *)
Fixpoint trace_shown (letter : string) (i count : nat) (cs : list ascii)
    : list shown :=
  match cs with
  | [] => []
  | c :: cs' =>
      let m := bool_decide (occurs letter c) in
      let count' := if m then S count else count in
      {| shown_index := i; shown_char := c;
         shown_match := m; shown_count := count' |}
      :: trace_shown letter (S i) count' cs'
  end.

(** A running total from [prev]: every line adds one if it is labelled
    MATCH and nothing otherwise. *)
Fixpoint running_total (prev : nat) (ss : list shown) : Prop :=
  match ss with
  | [] => True
  | s :: ss' =>
      shown_count s = prev + (if shown_match s then 1 else 0)
      ∧ running_total (shown_count s) ss'
  end.

(** The lowercase alphabet of the unbiased branch. *)
Definition alphabet : string := "abcdefghijklmnopqrstuvwxyz".

(** The first draw of a letter pick takes the biased branch. *)
Definition biased {G : Type} `{!RandomGen G} (g : G) : bool :=
  lt_0_8 (next_float g).1.

(** C2 as stated: every word of a non-empty list occurs among the [n]
    generated pairs either floor(n / |words|) or ceiling(n / |words|)
    times, whatever the generator does. *)
Definition even_coverage : Prop :=
  ∀ (G : Type) (R : RandomGen G) (py : process)
    (words : list string) (n seed : Z) (pairs : list (string * string)),
    words ≠ [] → (0 ≤ n)%Z →
    generate_pairs py words n seed = Ok pairs →
    ∀ w, w ∈ words →
      let len := Z.of_nat (length words) in
      let times := Z.of_nat (count_of w pairs.*1) in
      (times = n `div` len ∨ times = (n + len - 1) `div` len)%Z.


(** ** Concrete processes and a concrete generator

    Two processes that enumerate a set of characters by ascending and by
    descending code, and a generator that reads its draws off the
    mixed-radix digits of its seed, so that every sequence of draws is
    the behaviour of some seed. *)

Module Concrete.

Definition all_chars : list ascii := ascii_of_nat <$> seq 0 256.

Lemma all_chars_NoDup : NoDup all_chars.
Proof. apply (bool_decide_eq_true_1 (NoDup all_chars)). by vm_compute. Qed.

Lemma all_chars_elem c : c ∈ all_chars.
Proof.
  apply list_elem_of_fmap. exists (nat_of_ascii c). split.
  - by rewrite ascii_nat_embedding.
  - apply elem_of_seq. pose proof (nat_ascii_bounded c). lia.
Qed.

Definition ascending_order (X : gset ascii) : list ascii :=
  filter (λ c, c ∈ X) all_chars.
Definition descending_order (X : gset ascii) : list ascii :=
  reverse (ascending_order X).

Lemma ascending_order_perm X : ascending_order X ≡ₚ elements X.
Proof.
  apply NoDup_Permutation.
  - apply NoDup_filter, all_chars_NoDup.
  - apply NoDup_elements.
  - intros c. unfold ascending_order.
    rewrite list_elem_of_filter, elem_of_elements.
    pose proof (all_chars_elem c). tauto.
Qed.

Lemma descending_order_perm X : descending_order X ≡ₚ elements X.
Proof.
  unfold descending_order. rewrite reverse_Permutation.
  apply ascending_order_perm.
Qed.

Definition ascending : process :=
  {| set_order := ascending_order; set_order_perm := ascending_order_perm |}.
Definition descending : process :=
  {| set_order := descending_order; set_order_perm := descending_order_perm |}.

Definition radix_float (g : N) : N * N :=
  ((g `mod` 2 ^ 53)%N, (g `div` 2 ^ 53)%N).
Definition radix_below (n : nat) (g : N) : nat * N :=
  (N.to_nat (g `mod` N.of_nat n)%N, (g `div` N.of_nat n)%N).

Lemma radix_below_lt n g : 0 < n → (radix_below n g).1 < n.
Proof.
  intros Hn. simpl.
  assert (g `mod` N.of_nat n < N.of_nat n)%N by (apply N.mod_lt; lia).
  lia.
Qed.

#[export] Instance radix : RandomGen N :=
  {| seeded := Z.abs_N;
     next_float := radix_float;
     randbelow := radix_below;
     randbelow_lt := radix_below_lt |}.

End Concrete.

Import Concrete.

(** ** Words beyond ASCII

    [str.lower] is not character by character on every string: the
    lower-case form of U+0130 (capital I with dot above) is the two
    characters U+0069 U+0307; and some uppercase letters, such as
    U+2102 (double-struck capital C), have no lower-case form and are
    left as they are.  To follow the sampler and the renderer on such
    words, this module holds a [str] as the list of its code points and
    gives the case operations of Python on the code points below
    U+0080, on U+0130, on U+0307 and on U+2102 ([modelled]); on strings
    of these, [s.lower()] is the concatenation of the lower-case forms
    of the characters of [s]. *)

Module Unicode.

Definition ustr : Type := list N.

Definition modelled (c : N) : Prop :=
  (c < 128 ∨ c = 304 ∨ c = 775 ∨ c = 8450)%N.

#[export] Instance modelled_dec c : Decision (modelled c).
Proof. unfold modelled. apply _. Defined.

(** An ASCII literal of the source. *)
Definition text (s : string) : ustr := N_of_ascii <$> chars s.

(** The two characters of the templates above U+007F. *)
Definition em_dash : N := 8212%N.
Definition arrow : N := 8594%N.

(** [c.isupper()], [c.islower()] and [c.isalpha()] for one character. *)
Definition isupper (c : N) : bool :=
  bool_decide ((65 ≤ c ≤ 90)%N ∨ c = 304%N ∨ c = 8450%N).
Definition islower (c : N) : bool :=
  bool_decide (97 ≤ c ≤ 122)%N.
Definition isalpha (c : N) : bool := isupper c || islower c.

(** [c.lower()] for one character. *)
Definition lower_char (c : N) : ustr :=
  if decide (65 ≤ c ≤ 90)%N then [(c + 32)%N]
  else if decide (c = 304%N) then [105%N; 775%N]
  else [c].

(** [s.lower()] *)
Definition lower (s : ustr) : ustr := s ≫= lower_char.

(** [sep.join(ls)] *)
Fixpoint join (sep : ustr) (ls : list ustr) : ustr :=
  match ls with
  | [] => []
  | x :: ls' =>
      match ls' with
      | [] => x
      | _ :: _ => x ++ sep ++ join sep ls'
      end
  end.

(** The order of [list(set(s))] in an interpreter process. *)
Record process : Type := {
  set_order : gset N → list N;
  set_order_perm : ∀ X, set_order X ≡ₚ elements X
}.

Definition spell_out (word : ustr) : ustr :=
  join (text "-") ((λ c, [c]) <$> word).

Definition match_line (i : nat) (char : N) (count : nat) : ustr :=
  text "- Position " ++ text (pretty i) ++ text ": " ++ [char]
    ++ text " " ++ [arrow] ++ text " MATCH (count = "
    ++ text (pretty count) ++ text ")".

Definition other_line (i : nat) (char : N) (letter : ustr) (count : nat)
    : ustr :=
  text "- Position " ++ text (pretty i) ++ text ": " ++ [char]
    ++ text " " ++ [arrow] ++ text " not " ++ letter
    ++ text " (count = " ++ text (pretty count) ++ text ")".

Definition answer_line (letter : ustr) (count : nat) (word : ustr) : ustr :=
  text nl ++ text "**Answer: " ++ text dq ++ letter ++ text dq
    ++ text " appears " ++ text (pretty count) ++ text " time"
    ++ (if decide (count ≠ 1) then text "s" else [])
    ++ text " in " ++ text dq ++ word ++ text dq ++ text ".**".

Definition step1_line (word : ustr) : ustr :=
  text "Step 1 " ++ [em_dash] ++ text " Spell it out: "
    ++ spell_out word ++ text nl.
Definition step2_line : ustr :=
  text "Step 2 " ++ [em_dash] ++ text " Check each letter:".

(** One iteration of the loop on the state [(count, lines)]. *)
Definition check_position (letter target : ustr)
    (st : nat * list ustr) (ic : nat * N) : nat * list ustr :=
  let '(count, lines) := st in
  let '(i, char) := ic in
  if decide (lower [char] = target) then
    let count := count + 1 in
    (count, lines ++ [match_line i char count])
  else
    (count, lines ++ [other_line i char letter count]).

(** [count] and [lines] of [build_assistant_response] when its loop
    ends. *)
Definition check_positions (word letter : ustr) : nat * list ustr :=
  let lines := [] in
  let lines := lines ++ [step1_line word] in
  let lines := lines ++ [step2_line] in
  let count := 0 in
  let target := lower letter in
  foldl (check_position letter target) (count, lines) (enumerate 1 word).

(** The value of [count] that the answer is built from. *)
Definition final_count (word letter : ustr) : nat :=
  (check_positions word letter).1.

Definition response_lines (word letter : ustr) : list ustr :=
  let '(count, lines) := check_positions word letter in
  lines ++ [answer_line letter count word].

Definition build_assistant_response (word letter : ustr) : ustr :=
  join (text nl) (response_lines word letter).

Section Sampling.
Context {G : Type} `{!RandomGen G} (py : process).

Definition pick_letter_for_word (word : ustr) : Rand G ustr :=
  r ← random;
  if lt_0_8 r then
    choice ((λ c, [c]) <$> set_order py (list_to_set (lower word)))
  else
    choice ((λ c, [c]) <$> text "abcdefghijklmnopqrstuvwxyz").
End Sampling.

(** The number of characters of [word] whose lower-case form is that of
    [letter]. *)
Definition occurrences (letter word : ustr) : nat :=
  length (filter (λ c, lower [c] = lower letter) word).

(** A process whose sets list their elements in code-point order. *)
Definition sorted_order (X : gset N) : list N :=
  merge_sort N.le (elements X).

Lemma sorted_order_perm X : sorted_order X ≡ₚ elements X.
Proof. apply merge_sort_Permutation. Qed.

Definition sorted : process :=
  {| set_order := sorted_order; set_order_perm := sorted_order_perm |}.

(** The word "İstanbul". *)
Definition istanbul : ustr := [304%N] ++ text "stanbul".



End Unicode.

(** * Further vocabulary *)

(** What a position line shows apart from the character itself. *)
Definition shown_tally (s : shown) : nat * bool * nat :=
  (shown_index s, shown_match s, shown_count s).

(** A line with nothing but whitespace. *)
Definition blank (line : string) : Prop :=
  Forall (λ c, isspace c = true) (chars line).

(** A word of admissible length. *)
Definition admissible (w : string) : Prop :=
  3 ≤ String.length w ∧ String.length w ≤ 20.

(** ** The entry point with its effects

    What a run does to the outside: texts it prints, and calls into the
    [datasets] library, each of which may raise.  A dataset is the list
    of its rows. *)

Inductive event : Type :=
  | Print (text : string)
  | PrintPreview (dataset : list sample)
  | PrintSample (entry : sample)
  | FromList (rows : list sample)
  | SaveToDisk (dataset : list sample) (path : string)
  | PushToHub (dataset : list sample) (repo_id : string) (token : option string).

Inductive failure : Type :=
  | Raised (e : exn)
  | LibraryRaised (call : event)
  | Unreadable (path : string).

(** [load_words(path)] from the opening of the file on: [file] is
    [None] when the file cannot be opened or decoded, and otherwise the
    lines that iterating it yields. *)
Definition load_words_file (path : string) (file : option (list string))
    : failure + list string :=
  match file with
  | None => inl (Unreadable path)
  | Some lines =>
      match load_words path lines with
      | inl e => inl (Raised e)
      | inr words => inr words
      end
  end.

(** The events of a run, in order, and how it ends. *)
Definition Eff (A : Type) : Type := list event * (failure + A).

#[export] Instance eff_ret : MRet Eff := λ A a, ([], inr a).
#[export] Instance eff_bind : MBind Eff := λ A B f m,
  match m with
  | (t, inl e) => (t, inl e)
  | (t, inr a) => let '(t', r) := f a in (t ++ t', r)
  end.

Definition emit (ev : event) : Eff unit := ([ev], inr ()).
Definition throw {A} (e : failure) : Eff A := ([], inl e).
Definition lift {A} (r : result A) : Eff A :=
  match r with
  | inl e => throw (Raised e)
  | inr a => mret a
  end.

(** The parsed command line. *)
Record args : Type := {
  arg_words : string;
  arg_output : string;
  arg_n_samples : Z;
  arg_seed : Z;
  arg_token : option string
}.

Section Effects.
Context {G : Type} `{!RandomGen G} (py : process).
(** Which library calls raise. *)
Variable fails : event → bool.

Definition call (ev : event) : Eff unit :=
  ([ev], if fails ev then inl (LibraryRaised ev) else inr ()).

Definition push_to_hub (samples : list sample) (repo_id : string)
    (token : option string) : Eff unit :=
  _ ← call (FromList samples);
  let dataset := samples in
  _ ← call (SaveToDisk dataset ("dataset/" +:+ repo_id));
  _ ← emit (PrintPreview dataset);
  entry ← match samples !! 0 with
          | Some entry => mret entry
          | None => throw (Raised IndexError)
          end;
  _ ← emit (PrintSample entry);
  _ ← call (PushToHub dataset repo_id token);
  emit (Print (nl +:+ "Dataset pushed to: https://huggingface.co/datasets/"
                  +:+ repo_id)).

(** [main], given the parsed arguments and the lines of the words file
    ([None] when it cannot be opened). *)
Definition main_effects (a : args) (file : option (list string)) : Eff unit :=
  _ ← emit (Print ("Loading words from " +:+ arg_words a +:+ "..."));
  words ← match file with
          | None => throw (Unreadable (arg_words a))
          | Some lines => lift (load_words (arg_words a) lines)
          end;
  _ ← emit (Print ("Loaded " +:+ pretty (length words) +:+ " words."));
  _ ← emit (Print ("Generating " +:+ pretty (arg_n_samples a)
                     +:+ " samples (seed=" +:+ pretty (arg_seed a) +:+ ")..."));
  samples ← lift (generate_samples py words (arg_n_samples a) (arg_seed a));
  _ ← emit (Print ("Generated " +:+ pretty (length samples) +:+ " samples."));
  push_to_hub samples (arg_output a) (arg_token a).
End Effects.

(** A command line and a words file for the examples below. *)
Definition example_args : args :=
  {| arg_words := "words.txt"; arg_output := "me/letters";
     arg_n_samples := 1; arg_seed := 42; arg_token := None |}.
Definition example_file : list string :=
  ["straw" +:+ nl; nl; "ab" +:+ nl].

(** ** The draws a run makes

    A generator that also records each draw asked of it: a float, or an
    integer below a bound. *)

Inductive draw : Type :=
  | DrawFloat
  | DrawBelow (bound : nat).

Section Recording.
Context {G : Type} `{!RandomGen G}.

Definition recording_float (s : G * list draw) : N * (G * list draw) :=
  let '(g, log) := s in
  let '(k, g') := next_float g in
  (k, (g', log ++ [DrawFloat])).

Definition recording_below (n : nat) (s : G * list draw)
    : nat * (G * list draw) :=
  let '(g, log) := s in
  let '(j, g') := randbelow n g in
  (j, (g', log ++ [DrawBelow n])).

Lemma recording_below_lt n s : 0 < n → (recording_below n s).1 < n.
Proof.
  intros Hn. destruct s as [g log]. unfold recording_below.
  pose proof (randbelow_lt n g Hn). by destruct (randbelow n g).
Qed.

#[export] Instance recording : RandomGen (G * list draw) :=
  {| seeded := λ seed, (seeded seed, []);
     next_float := recording_float;
     randbelow := recording_below;
     randbelow_lt := recording_below_lt |}.

(** The bounds of the draws of [rng.shuffle] on a list of [i + 1]
    entries: [i + 1], [i], ..., [2]. *)
Fixpoint shuffle_bounds (i : nat) : list nat :=
  match i with
  | 0 => []
  | S i' => S i :: shuffle_bounds i'
  end.

(** [generate_samples] run with the recording generator: the samples
    and the draws made, in order. *)
Definition generate_samples_log (py : process) (words : list string)
    (n_samples seed : Z) : result (list sample * list draw) :=
  let rng : G * list draw := seeded seed in
  if decide (length words = 0) then Err ZeroDivisionError else
  let word_pool :=
    repeat_list words (n_samples `div` Z.of_nat (length words) + 1) in
  match (word_pool ← shuffle word_pool;
         draw_samples py (slice_to word_pool n_samples)) rng with
  | inl e => inl e
  | inr (samples, (_, log)) => inr (samples, log)
  end.
End Recording.

Section Draws.
Context {G : Type} `{!RandomGen G} (py : process).

(** The bound of the draw a pick makes after its float. *)
Definition pick_bound (word : string) (g : G) : nat :=
  if biased g
  then length (set_order py (list_to_set (chars (lower word))))
  else 26.

(** The draws of the comprehension over [pool] from the state [g]. *)
Fixpoint letter_draws (pool : list string) (g : G) : list draw :=
  match pool with
  | [] => []
  | word :: pool' =>
      match pick_letter_for_word py word g with
      | inl _ => []
      | inr (_, g') =>
          DrawFloat :: DrawBelow (pick_bound word g) :: letter_draws pool' g'
      end
  end.

End Draws.

(** * Properties *)

(** ** Strings as character lists *)

Lemma chars_app s t : chars (s +:+ t) = chars s ++ chars t.
Proof.
  induction s as [|c s IH]; [done|].
  change (chars (String c (s +:+ t)) = c :: (chars s ++ chars t)).
  change (c :: chars (s +:+ t) = c :: (chars s ++ chars t)). by rewrite IH.
Qed.

Lemma chars_length s : length (chars s) = String.length s.
Proof. induction s; cbn; auto. Qed.

Lemma chars_inj s t : chars s = chars t → s = t.
Proof.
  intros E. rewrite <- (String.string_of_list_ascii_of_string s),
    <- (String.string_of_list_ascii_of_string t).
  unfold chars in E. by rewrite E.
Qed.

Lemma chars_lower s : chars (lower s) = lower_char <$> chars s.
Proof.
  induction s as [|c s IH]; [done|].
  change (lower_char c :: chars (lower s) = lower_char c :: (lower_char <$> chars s)).
  by rewrite IH.
Qed.

Lemma lower_str1 c : lower (str1 c) = str1 (lower_char c).
Proof. done. Qed.

(** ** Decimal numerals *)

Lemma pretty_N_char_digit m :
  (m < 10)%N →
  isdigit (pretty_N_char m) = true ∧ digit_value (pretty_N_char m) = m.
Proof.
  intros Hm.
  assert (m = 0 ∨ m = 1 ∨ m = 2 ∨ m = 3 ∨ m = 4 ∨ m = 5 ∨ m = 6 ∨ m = 7
          ∨ m = 8 ∨ m = 9)%N as Hc by lia.
  repeat (destruct Hc as [-> | Hc]); try subst m; by vm_compute.
Qed.

Lemma read_digits_snoc ds d :
  read_digits (ds ++ [d]) = (10 * read_digits ds + digit_value d)%N.
Proof. unfold read_digits. by rewrite foldl_app. Qed.

Lemma pretty_N_go_digits x s :
  ∃ ds, chars (pretty_N_go x s) = ds ++ chars s
        ∧ Forall (λ c, isdigit c) ds
        ∧ read_digits ds = x
        ∧ ((0 < x)%N → ds ≠ []).
Proof.
  revert s. induction (N.lt_wf_0 x) as [x _ IH]. intros s.
  destruct (decide (x = 0%N)) as [-> | Hx].
  { exists []. rewrite pretty_N_go_0. repeat split; [constructor | lia]. }
  rewrite pretty_N_go_step by lia.
  destruct (IH (x `div` 10)%N) with (s := String (pretty_N_char (x `mod` 10)) s)
    as (ds & Hds & Hall & Hval & _).
  { apply N.div_lt; lia. }
  destruct (pretty_N_char_digit (x `mod` 10)%N) as [Hd Hv].
  { apply N.mod_lt; lia. }
  exists (ds ++ [pretty_N_char (x `mod` 10)]). repeat split.
  - rewrite Hds. cbn. by rewrite <- app_assoc.
  - apply Forall_app. split; [done | by constructor; [rewrite Hd|]].
  - rewrite read_digits_snoc, Hval, Hv. symmetry. apply N.div_mod. lia.
  - intros _. by destruct ds.
Qed.

(** The numeral of a natural number is a non-empty run of digits that
    reads back as the number. *)
Lemma pretty_nat_digits (n : nat) :
  chars (pretty n) ≠ []
  ∧ Forall (λ c, isdigit c) (chars (pretty n))
  ∧ read_nat (chars (pretty n)) = Some n.
Proof.
  unfold pretty, pretty_nat, pretty, pretty_N.
  destruct (decide (N.of_nat n = 0%N)) as [E | E].
  { assert (n = 0) as -> by lia.
    change (chars (if decide (N.of_nat 0 = 0%N) then "0" else _)) with (chars "0").
    repeat split; [done | by repeat constructor..]. }
  destruct (pretty_N_go_digits (N.of_nat n) EmptyString)
    as (ds & Hds & Hall & Hval & Hne).
  rewrite app_nil_r in Hds. rewrite Hds.
  assert (ds ≠ []) by (apply Hne; lia).
  repeat split; [done..|].
  unfold read_nat. rewrite decide_True by done. rewrite Hval. f_equal. lia.
Qed.

(** ** The reader recovers what the templates print *)

Lemma expect_app p l : expect p (p ++ l) = Some l.
Proof.
  unfold expect. rewrite take_app_length, drop_app_length.
  by rewrite decide_True.
Qed.

Lemma span_digits_app ds c l :
  Forall (λ c, isdigit c) ds → isdigit c = false →
  span_digits (ds ++ c :: l) = (ds, c :: l).
Proof.
  intros Hds Hc. induction Hds as [|d ds Hd _ IH]; cbn.
  - by rewrite Hc.
  - destruct (isdigit d); [|done]. by rewrite IH.
Qed.

Lemma read_position_chars_template i c k lab :
  read_position_chars
    (chars "- Position " ++ chars (pretty i) ++ chars ": " ++ c ::
     chars " → " ++ lab ++ chars " (count = " ++ chars (pretty k)
     ++ chars ")")
  = Some {| shown_index := i; shown_char := c;
            shown_match :=
              bool_decide (take 5 (lab ++ chars " (count = ") = chars "MATCH");
            shown_count := k |}.
Proof.
  destruct (pretty_nat_digits i) as (_ & Hdi & Hri).
  destruct (pretty_nat_digits k) as (_ & Hdk & Hrk).
  unfold read_position_chars.
  rewrite expect_app. cbn [mbind option_bind].
  change (chars ": " ++ ?t) with (":"%char :: chars " " ++ t).
  rewrite span_digits_app by done.
  rewrite Hri. cbn [mbind option_bind].
  change (":"%char :: chars " " ++ ?t) with (chars ": " ++ t).
  rewrite expect_app. cbn [mbind option_bind].
  rewrite expect_app. cbn [mbind option_bind].
  rewrite !reverse_app.
  rewrite <- !app_assoc.
  rewrite expect_app. cbn [mbind option_bind].
  change (reverse (chars " (count = ") ++ ?t)
    with (" "%char :: reverse (chars " (count =") ++ t).
  rewrite span_digits_app; [|by apply Forall_reverse|done].
  rewrite reverse_involutive, Hrk. cbn [mbind option_bind].
  change (" "%char :: reverse (chars " (count =") ++ ?t)
    with (reverse (chars " (count = ") ++ t).
  rewrite expect_app. cbn [mbind option_bind].
  do 2 f_equal.
  assert (∀ (x y z : list ascii), take 5 (x ++ y ++ z) = take 5 (x ++ y)
           ∨ length (x ++ y) < 5) as Ht.
  { intros x y z. destruct (decide (length (x ++ y) < 5)) as [|Hge]; [by right|].
    left. rewrite app_assoc, take_app_le by lia. done. }
  destruct (Ht lab (chars " (count = ") (chars (pretty k) ++ chars ")"))
    as [-> | Hlt]; [done|].
  rewrite length_app in Hlt. cbn in Hlt. lia.
Qed.

Lemma match_line_chars i c k :
  chars (match_line i c k)
  = chars "- Position " ++ chars (pretty i) ++ chars ": " ++ c ::
    chars " → " ++ chars "MATCH" ++ chars " (count = " ++ chars (pretty k)
    ++ chars ")".
Proof. unfold match_line. rewrite !chars_app. reflexivity. Qed.

Lemma other_line_chars i c letter k :
  chars (other_line i c letter k)
  = chars "- Position " ++ chars (pretty i) ++ chars ": " ++ c ::
    chars " → " ++ (chars "not " ++ chars letter) ++ chars " (count = "
    ++ chars (pretty k) ++ chars ")".
Proof. unfold other_line. rewrite !chars_app, <- !app_assoc. reflexivity. Qed.

Lemma read_match_line i c k :
  read_position_line (match_line i c k)
  = Some {| shown_index := i; shown_char := c;
            shown_match := true; shown_count := k |}.
Proof.
  unfold read_position_line.
  by rewrite match_line_chars, read_position_chars_template.
Qed.

Lemma read_other_line i c letter k :
  read_position_line (other_line i c letter k)
  = Some {| shown_index := i; shown_char := c;
            shown_match := false; shown_count := k |}.
Proof.
  unfold read_position_line.
  by rewrite other_line_chars, read_position_chars_template.
Qed.

Lemma answer_line_chars letter total word :
  chars (answer_line letter total word)
  = chars (nl +:+ "**Answer: " +:+ dq +:+ letter +:+ dq +:+ " appears ")
    ++ chars (pretty total) ++ chars " time"
    ++ chars ((if decide (total ≠ 1) then "s" else EmptyString)
              +:+ " in " +:+ dq +:+ word +:+ dq +:+ ".**").
Proof.
  unfold answer_line. rewrite !chars_app, <- !app_assoc. reflexivity.
Qed.

Lemma read_answer_line letter total word :
  read_answer_total letter (answer_line letter total word) = Some total.
Proof.
  destruct (pretty_nat_digits total) as (_ & Hd & Hr).
  unfold read_answer_total. rewrite answer_line_chars, expect_app.
  cbn [mbind option_bind].
  change (chars " time" ++ ?t) with (" "%char :: chars "time" ++ t).
  rewrite span_digits_app by done. rewrite Hr. cbn [mbind option_bind].
  change (" "%char :: chars "time" ++ ?t) with (chars " time" ++ t).
  by rewrite expect_app.
Qed.

(** ** The checking loop *)

Lemma foldl_check_position letter cs : ∀ i count lines,
  foldl (check_position letter (lower letter)) (count, lines) (enumerate i cs)
  = (count + length (filter (occurs letter) cs),
     lines ++ trace_lines letter i count cs).
Proof.
  induction cs as [|c cs IH]; intros i count lines; cbn [enumerate foldl].
  { cbn. by rewrite Nat.add_0_r, app_nil_r. }
  cbn [trace_lines check_position]. rewrite filter_cons.
  destruct (decide (lower (str1 c) = lower letter)) as [Hc | Hc].
  - rewrite !(decide_True (P := occurs letter c)) by exact Hc.
    rewrite IH, Nat.add_1_r.
    cbn [length]. f_equal; [lia | by rewrite <- app_assoc].
  - rewrite !(decide_False (P := occurs letter c)) by exact Hc. rewrite IH.
    f_equal. by rewrite <- app_assoc.
Qed.


Lemma response_lines_eq word letter :
  response_lines word letter
  = step1_line word :: step2_line :: trace_lines letter 1 0 (chars word)
    ++ [answer_line letter (occurrences letter word) word].
Proof.
  unfold response_lines. rewrite foldl_check_position. reflexivity.
Qed.

Lemma position_lines_eq word letter :
  position_lines word letter = trace_lines letter 1 0 (chars word).
Proof.
  unfold position_lines. rewrite response_lines_eq.
  cbn [drop length]. rewrite length_app. cbn [length].
  replace (S (S (length (trace_lines letter 1 0 (chars word)) + 1)) - 3)
    with (length (trace_lines letter 1 0 (chars word))) by lia.
  by rewrite drop_0, take_app_length.
Qed.

Lemma read_trace_lines letter cs : ∀ i count,
  mapM read_position_line (trace_lines letter i count cs)
  = Some (trace_shown letter i count cs).
Proof.
  induction cs as [|c cs IH]; intros i count; [done|].
  cbn [trace_lines trace_shown].
  destruct (decide (occurs letter c)) as [Hc | Hc].
  - rewrite bool_decide_eq_true_2 by done. cbn [mapM].
    rewrite read_match_line. cbn [mbind option_bind]. by rewrite IH.
  - rewrite bool_decide_eq_false_2 by done. cbn [mapM].
    rewrite read_other_line. cbn [mbind option_bind]. by rewrite IH.
Qed.

Lemma shown_lines_eq word letter :
  shown_lines word letter = Some (trace_shown letter 1 0 (chars word)).
Proof. unfold shown_lines. by rewrite position_lines_eq, read_trace_lines. Qed.

Lemma trace_shown_lookup letter cs : ∀ i count j c,
  cs !! j = Some c →
  trace_shown letter i count cs !! j
  = Some {| shown_index := i + j; shown_char := c;
            shown_match := bool_decide (occurs letter c);
            shown_count :=
              count + length (filter (occurs letter) (take (S j) cs)) |}.
Proof.
  induction cs as [|c0 cs IH]; intros i count j c Hj; [done|].
  destruct j as [|j]; cbn in Hj.
  - simplify_eq. cbn [trace_shown lookup list_lookup take].
    rewrite take_0, filter_cons, filter_nil, Nat.add_0_r.
    do 2 f_equal. destruct (decide (occurs letter c)) as [Hc|Hc].
    + rewrite bool_decide_eq_true_2 by done. cbn. lia.
    + rewrite bool_decide_eq_false_2 by done. cbn. lia.
  - cbn [trace_shown]. rewrite lookup_cons. cbn -[take].
    rewrite (IH _ _ _ _ Hj). do 2 f_equal; [lia|].
    rewrite (firstn_cons (S j) c0 cs), filter_cons.
    destruct (decide (occurs letter c0)) as [Hc|Hc].
    + rewrite bool_decide_eq_true_2 by done. cbn [length]. lia.
    + rewrite bool_decide_eq_false_2 by done. lia.
Qed.

(** [join] with one more line. *)
Lemma join_snoc sep l a :
  l ≠ [] → join sep (l ++ [a]) = join sep l +:+ sep +:+ a.
Proof.
  intros Hl. induction l as [|x l IH]; [done|].
  destruct l as [|y l].
  - reflexivity.
  - change (join sep ((x :: y :: l) ++ [a]))
      with (x +:+ sep +:+ join sep ((y :: l) ++ [a])).
    rewrite IH by done.
    change (join sep (x :: y :: l)) with (x +:+ sep +:+ join sep (y :: l)).
    apply chars_inj. by rewrite !chars_app, <- !app_assoc.
Qed.

Lemma trace_shown_length letter cs : ∀ i count,
  length (trace_shown letter i count cs) = length cs.
Proof. induction cs as [|c cs IH]; intros i count; cbn; [done | by rewrite IH]. Qed.


Lemma trace_shown_running letter cs : ∀ i count,
  running_total count (trace_shown letter i count cs).
Proof.
  induction cs as [|c cs IH]; intros i count; [done|].
  cbn [trace_shown running_total shown_count shown_match]. split; [|apply IH].
  destruct (bool_decide (occurs letter c)); lia.
Qed.

Lemma running_total_lower_bound ss : ∀ prev k b,
  running_total prev ss → ss !! k = Some b → prev ≤ shown_count b.
Proof.
  induction ss as [|s ss IH]; intros prev k b Hrun Hk; [done|].
  destruct Hrun as [Hs Hrun]. destruct k as [|k]; cbn in Hk.
  - simplify_eq. lia.
  - specialize (IH _ _ _ Hrun Hk). lia.
Qed.

Lemma running_total_mono ss : ∀ prev j k a b,
  running_total prev ss → j ≤ k →
  ss !! j = Some a → ss !! k = Some b → shown_count a ≤ shown_count b.
Proof.
  induction ss as [|s ss IH]; intros prev j k a b Hrun Hjk Hj Hk; [done|].
  destruct Hrun as [Hs Hrun]. destruct j as [|j], k as [|k]; cbn in Hj, Hk.
  - by simplify_eq.
  - simplify_eq. eapply running_total_lower_bound; eauto.
  - lia.
  - eapply (IH _ j k); eauto. lia.
Qed.

Lemma response_ends_with_answer word letter :
  build_assistant_response word letter
  = join nl (step1_line word :: step2_line :: position_lines word letter)
    +:+ nl +:+ answer_line letter (occurrences letter word) word.
Proof.
  unfold build_assistant_response.
  rewrite response_lines_eq, position_lines_eq.
  by rewrite !app_comm_cons, join_snoc.
Qed.

(** ** The examples of the specification *)

Example straw_s :
  build_assistant_response "straw" "s"
  = join nl
      [ "Step 1 — Spell it out: s-t-r-a-w" +:+ nl;
        "Step 2 — Check each letter:";
        "- Position 1: s → MATCH (count = 1)";
        "- Position 2: t → not s (count = 1)";
        "- Position 3: r → not s (count = 1)";
        "- Position 4: a → not s (count = 1)";
        "- Position 5: w → not s (count = 1)";
        nl +:+ "**Answer: " +:+ dq +:+ "s" +:+ dq +:+ " appears 1 time in "
           +:+ dq +:+ "straw" +:+ dq +:+ ".**" ].
Proof. reflexivity. Qed.

Example mississippi_s :
  occurrences "s" "mississippi" = 4
  ∧ last (response_lines "mississippi" "s")
    = Some (nl +:+ "**Answer: " +:+ dq +:+ "s" +:+ dq
               +:+ " appears 4 times in " +:+ dq +:+ "mississippi" +:+ dq
               +:+ ".**").
Proof. split; reflexivity. Qed.

(** The shuffle behind the coverage counterexample: the draws 3, 1, 1
    exchange only the second and third entries of the pool. *)
Example shuffle_aaa_bbb :
  shuffle (G := N) ["aaa"; "bbb"; "aaa"; "bbb"] 19%N
  = Ok (["aaa"; "aaa"; "bbb"; "bbb"], 0%N).
Proof. reflexivity. Qed.

Example pairs_aaa_bbb :
  generate_pairs (G := N) ascending ["aaa"; "bbb"] 2 19
  = Ok [("aaa", "a"); ("aaa", "a")].
Proof. reflexivity. Qed.

(** ** The renderer *)

(** C1. For every word and letter, the total that the final answer line
    states, and the count shown on the last position line, are the
    number of case-insensitive occurrences of the letter in the word.
    The response is its headers and position lines followed by the
    answer, which is the last of its lines and reads as that number; the
    last position line reads as that number too. *)
Theorem final_count_is_true_count (word letter : string) :
  ∃ answer,
    build_assistant_response word letter
    = join nl (step1_line word :: step2_line :: position_lines word letter)
      +:+ nl +:+ answer
    ∧ last (response_lines word letter) = Some answer
    ∧ read_answer_total letter answer = Some (occurrences letter word)
    ∧ ∃ ss, shown_lines word letter = Some ss
            ∧ length ss = String.length word
            ∧ ∀ s, last ss = Some s →
                   shown_count s = occurrences letter word.
Proof.
  exists (answer_line letter (occurrences letter word) word).
  split; [apply response_ends_with_answer|].
  split.
  { rewrite response_lines_eq, !app_comm_cons. apply last_snoc. }
  split; [apply read_answer_line|].
  exists (trace_shown letter 1 0 (chars word)).
  split; [apply shown_lines_eq|].
  split; [by rewrite trace_shown_length, chars_length|].
  intros s Hs. rewrite last_lookup, trace_shown_length in Hs.
  destruct (chars word !! pred (length (chars word))) as [c|] eqn:Hc.
  - rewrite (trace_shown_lookup _ _ _ _ _ _ Hc) in Hs. simplify_eq. cbn.
    apply lookup_lt_Some in Hc.
    rewrite take_ge by lia. done.
  - apply lookup_ge_None in Hc.
    rewrite lookup_ge_None_2 in Hs; [done|].
    rewrite trace_shown_length. lia.
Qed.

Lemma final_count_is_true_count_witness :
  ∃ answer ss s,
    last (response_lines "sos" "S") = Some answer
    ∧ read_answer_total "S" answer = Some 2
    ∧ shown_lines "sos" "S" = Some ss
    ∧ last ss = Some s
    ∧ shown_count s = 2
    ∧ occurrences "S" "sos" = 2.
Proof.
  destruct (final_count_is_true_count "sos" "S")
    as (answer & _ & Hlast & Hread & ss & Hss & _ & Hcount).
  exists answer, ss.
  exists {| shown_index := 3; shown_char := "s"; shown_match := true;
            shown_count := 2 |}.
  assert (last ss
          = Some {| shown_index := 3; shown_char := "s"; shown_match := true;
                    shown_count := 2 |}) as Hs.
  { vm_compute in Hss. injection Hss as <-. reflexivity. }
  split; [exact Hlast|]. split; [exact Hread|]. split; [exact Hss|].
  split; [exact Hs|]. split; [exact (Hcount _ Hs) | reflexivity].
Defined.

(** C5. In every response the counts shown on the position lines form a
    running total from zero: a line labelled MATCH shows one more than
    the line before it, any other line shows the same count, and the
    sequence never decreases. *)
Theorem shown_counts_running_total (word letter : string) :
  ∃ ss, shown_lines word letter = Some ss
        ∧ running_total 0 ss
        ∧ ∀ j k a b, j ≤ k → ss !! j = Some a → ss !! k = Some b →
                     shown_count a ≤ shown_count b.
Proof.
  exists (trace_shown letter 1 0 (chars word)).
  split; [apply shown_lines_eq|].
  split; [apply trace_shown_running|].
  intros j k a b. apply running_total_mono with (prev := 0).
  apply trace_shown_running.
Qed.

(** C6. The answer that ends a response reads "1 time" when the total
    is 1 and "n times" for every other total n, zero included. *)
Theorem answer_pluralization (word letter : string) :
  let n := occurrences letter word in
  build_assistant_response word letter
  = join nl (step1_line word :: step2_line :: position_lines word letter)
    +:+ nl +:+ nl +:+ "**Answer: " +:+ dq +:+ letter +:+ dq +:+ " appears "
    +:+ (if decide (n = 1) then "1 time" else pretty n +:+ " times")
    +:+ " in " +:+ dq +:+ word +:+ dq +:+ ".**".
Proof.
  intros n. rewrite response_ends_with_answer. fold n.
  do 2 f_equal. unfold answer_line.
  apply chars_inj. rewrite !chars_app.
  destruct (decide (n = 1)) as [-> | Hn].
  - rewrite decide_False by (intros H; by apply H). reflexivity.
  - rewrite decide_True by done. rewrite !chars_app, <- !app_assoc. reflexivity.
Qed.


(** ** The generator operations *)

Section RandFacts.
Context {G : Type} `{!RandomGen G}.

Lemma insert_head_Permutation {A} (x : list A) : ∀ j a b,
  x !! j = Some b → b :: <[j:=a]> x ≡ₚ a :: x.
Proof.
  induction x as [|y x IH]; intros j a b Hj; [done|].
  destruct j as [|j]; cbn in Hj.
  - simplify_eq. cbn. apply perm_swap.
  - cbn. rewrite (perm_swap y b), (IH _ a _ Hj). apply perm_swap.
Qed.

Lemma swap_Permutation {A} (x : list A) : ∀ i j, swap x i j ≡ₚ x.
Proof.
  unfold swap. induction x as [|y x IH]; intros i j; [by destruct i|].
  destruct i as [|i], j as [|j]; cbn.
  - done.
  - destruct (x !! j) as [b|] eqn:Hj; [|done].
    cbn. by apply insert_head_Permutation.
  - destruct (x !! i) as [a|] eqn:Hi; [|done].
    cbn. by apply insert_head_Permutation.
  - specialize (IH i j).
    destruct (x !! i) as [a|]; [|done].
    destruct (x !! j) as [b|]; [|done].
    cbn. by rewrite IH.
Qed.

Lemma shuffle_from_spec {A} i : ∀ (x : list A) (g : G),
  ∃ x' g', shuffle_from i x g = Ok (x', g') ∧ x' ≡ₚ x.
Proof.
  induction i as [|i IH]; intros x g.
  { by exists x, g. }
  cbn [shuffle_from]. unfold mbind, rand_bind, below at 1. cbn.
  destruct (randbelow (S (S i)) g) as [j g1].
  destruct (IH (swap x (S i) j) g1) as (x' & g' & -> & Hp).
  exists x', g'. split; [done|]. by rewrite Hp, swap_Permutation.
Qed.

(** [rng.shuffle] never raises and leaves a permutation of the list. *)
Lemma shuffle_spec {A} (x : list A) (g : G) :
  ∃ x' g', shuffle x g = Ok (x', g') ∧ x' ≡ₚ x.
Proof. apply shuffle_from_spec. Qed.

(** [rng.choice] on a non-empty sequence returns one of its members. *)
Lemma choice_spec {A} (seq : list A) (g : G) :
  seq ≠ [] → ∃ a g', choice seq g = Ok (a, g') ∧ a ∈ seq.
Proof.
  intros Hne. unfold choice.
  assert (0 < length seq) as Hlen by (destruct seq; [done | cbn; lia]).
  rewrite decide_False by lia.
  unfold mbind, rand_bind, below. cbn.
  pose proof (randbelow_lt (length seq) g Hlen) as Hlt.
  destruct (randbelow (length seq) g) as [j g1]. cbn in Hlt.
  destruct (lookup_lt_is_Some_2 seq j Hlt) as [a Ha].
  rewrite Ha. exists a, g1. split; [done|].
  by apply list_elem_of_lookup_2 in Ha.
Qed.
End RandFacts.

(** ** The sampler *)

Section SamplerFacts.
Context {G : Type} `{!RandomGen G} (py : process).

Lemma rand_bind_eq {A B} (m : Rand G A) (f : A → Rand G B) (g : G) :
  (m ≫= f) g = match m g with inl e => inl e | inr (a, g') => f a g' end.
Proof. done. Qed.

Lemma rand_mapM_cons {A B} (f : A → Rand G B) x l (g : G) :
  mapM f (x :: l) g
  = match f x g with
    | inl e => inl e
    | inr (y, g1) =>
        match mapM f l g1 with
        | inl e => inl e
        | inr (ys, g2) => inr (y :: ys, g2)
        end
    end.
Proof.
  cbn [mapM]. rewrite rand_bind_eq.
  destruct (f x g) as [e | [y g1]]; [done|].
  rewrite rand_bind_eq. by destruct (mapM f l g1) as [e | [ys g2]].
Qed.

Lemma set_order_elem (cs : list ascii) (c : ascii) :
  c ∈ set_order py (list_to_set cs) ↔ c ∈ cs.
Proof. rewrite (set_order_perm py), elem_of_elements. set_solver. Qed.

Lemma pick_biased word (g : G) :
  biased g = true →
  (word = EmptyString ∧ pick_letter_for_word py word g = Err IndexError)
  ∨ ∃ c g', pick_letter_for_word py word g = Ok (str1 c, g')
            ∧ c ∈ chars (lower word).
Proof.
  unfold biased, pick_letter_for_word, mbind, rand_bind, random. cbn.
  destruct (next_float g) as [r g1]. cbn. intros ->.
  destruct word as [|c0 word].
  { left. split; [done|]. cbn.
    assert (set_order py (∅ : gset ascii) = []) as ->; [|done].
    apply Permutation_nil_r. by rewrite (set_order_perm py), elements_empty. }
  right.
  set (cs := set_order py (list_to_set (chars (lower (String c0 word))))).
  destruct (choice_spec (str1 <$> cs) g1) as (a & g' & Hch & Ha).
  { assert (lower_char c0 ∈ cs) as Hin by (subst cs; apply (proj2 (set_order_elem _ _)); left).
    intros Hnil. apply fmap_nil_inv in Hnil. rewrite Hnil in Hin.
    by apply not_elem_of_nil in Hin. }
  apply list_elem_of_fmap in Ha as (c & -> & Hc).
  exists c, g'. split; [done|]. subst cs. by apply (proj1 (set_order_elem _ _)) in Hc.
Qed.

Lemma pick_unbiased word (g : G) :
  biased g = false →
  ∃ c g', pick_letter_for_word py word g = Ok (str1 c, g')
          ∧ c ∈ chars alphabet.
Proof.
  unfold biased, pick_letter_for_word, mbind, rand_bind, random. cbn.
  destruct (next_float g) as [r g1]. cbn. intros ->.
  destruct (choice_spec (str1 <$> chars alphabet) g1) as (a & g' & Hch & Ha).
  { done. }
  apply list_elem_of_fmap in Ha as (c & -> & Hc).
  by exists c, g'.
Qed.

(** A pick for a non-empty word returns a one-character string. *)
Lemma pick_ok word (g : G) :
  word ≠ EmptyString →
  ∃ c g', pick_letter_for_word py word g = Ok (str1 c, g').
Proof.
  intros Hw. destruct (biased g) eqn:Hb.
  - destruct (pick_biased word g Hb) as [[? _] | (c & g' & ? & _)]; [done|].
    by exists c, g'.
  - destruct (pick_unbiased word g Hb) as (c & g' & ? & _). by exists c, g'.
Qed.

Lemma draw_pair_eq word (g : G) :
  draw_pair py word g
  = match pick_letter_for_word py word g with
    | inl e => inl e
    | inr (letter, g') => inr ((word, letter), g')
    end.
Proof.
  unfold draw_pair. rewrite rand_bind_eq.
  by destruct (pick_letter_for_word py word g) as [e | [letter g']].
Qed.

Lemma draw_sample_eq word (g : G) :
  draw_sample py word g
  = match pick_letter_for_word py word g with
    | inl e => inl e
    | inr (letter, g') => inr (build_sample word letter, g')
    end.
Proof.
  unfold draw_sample. rewrite rand_bind_eq.
  by destruct (pick_letter_for_word py word g) as [e | [letter g']].
Qed.

Lemma draw_pairs_ok pool : ∀ (g : G),
  Forall (λ w, w ≠ EmptyString) pool →
  ∃ pairs g', draw_pairs py pool g = Ok (pairs, g') ∧ pairs.*1 = pool.
Proof.
  induction pool as [|w pool IH]; intros g Hpool.
  { by exists [], g. }
  apply Forall_cons in Hpool as [Hw Hpool].
  destruct (pick_ok w g Hw) as (c & g1 & Hpick).
  destruct (IH g1 Hpool) as (pairs & g' & Hdraw & Hfst).
  exists ((w, str1 c) :: pairs), g'. split; [|by cbn; rewrite Hfst].
  unfold draw_pairs in *.
  rewrite rand_mapM_cons, draw_pair_eq, Hpick. unfold Ok in *.
  by rewrite Hdraw.
Qed.

(** The samples are the pairs, each passed to [build_sample]. *)
Lemma draw_samples_pairs pool : ∀ (g : G),
  draw_samples py pool g
  = match draw_pairs py pool g with
    | inl e => inl e
    | inr (pairs, g') =>
        inr ((λ p, build_sample p.1 p.2) <$> pairs, g')
    end.
Proof.
  induction pool as [|w pool IH]; intros g; [done|].
  unfold draw_samples, draw_pairs in *.
  rewrite !rand_mapM_cons, draw_sample_eq, draw_pair_eq.
  destruct (pick_letter_for_word py w g) as [e | [letter g1]]; [done|].
  rewrite IH.
  by destruct (mapM (draw_pair py) pool g1) as [e | [pairs g']].
Qed.

Lemma generate_samples_pairs words n seed :
  generate_samples py words n seed
  = match generate_pairs py words n seed with
    | inl e => inl e
    | inr pairs => inr ((λ p, build_sample p.1 p.2) <$> pairs)
    end.
Proof.
  unfold generate_samples, generate_pairs.
  destruct (decide (length words = 0)); [done|].
  unfold eval, mbind, rand_bind.
  destruct (shuffle _ (seeded seed)) as [e | [pool g1]]; [done|].
  rewrite draw_samples_pairs.
  by destruct (draw_pairs py _ g1) as [e | [pairs g']].
Qed.
End SamplerFacts.

(** ** The word pool *)

Lemma count_of_app w l1 l2 :
  count_of w (l1 ++ l2) = count_of w l1 + count_of w l2.
Proof. unfold count_of. by rewrite filter_app, length_app. Qed.

Lemma count_of_Permutation w l1 l2 :
  l1 ≡ₚ l2 → count_of w l1 = count_of w l2.
Proof. intros Hp. unfold count_of. by rewrite Hp. Qed.

Lemma count_of_take w n l : count_of w (take n l) ≤ count_of w l.
Proof.
  rewrite <- (take_drop n l) at 2. rewrite count_of_app. lia.
Qed.

Lemma join_replicate_S {A} (l : list A) m :
  mjoin (replicate (S m) l) = l ++ mjoin (replicate m l).
Proof. done. Qed.

Lemma repeat_list_length {A} (l : list A) k :
  length (repeat_list l k) = Z.to_nat k * length l.
Proof.
  unfold repeat_list. induction (Z.to_nat k) as [|m IH]; [done|].
  rewrite join_replicate_S, length_app, IH. lia.
Qed.

Lemma count_of_repeat_list w l k :
  count_of w (repeat_list l k) = Z.to_nat k * count_of w l.
Proof.
  unfold repeat_list. induction (Z.to_nat k) as [|m IH]; [done|].
  rewrite join_replicate_S, count_of_app, IH. lia.
Qed.

Lemma pool_covers (len : nat) (n : Z) :
  0 < len → (0 ≤ n)%Z →
  Z.to_nat n < Z.to_nat (n `div` Z.of_nat len + 1) * len.
Proof.
  intros Hlen Hn.
  assert (0 <= n `div` Z.of_nat len)%Z by (apply Z.div_pos; lia).
  assert (n < (n `div` Z.of_nat len + 1) * Z.of_nat len)%Z.
  { pose proof (Z.mod_pos_bound n (Z.of_nat len)).
    pose proof (Z.div_mod n (Z.of_nat len)). nia. }
  nia.
Qed.

Section Generate.
Context {G : Type} `{!RandomGen G} (py : process).

(** [generate_samples] returns for every non-empty list of non-empty
    words: the words of its pairs are the first [n] of a permutation
    of the pool. *)
Lemma generate_pairs_spec words (n seed : Z) :
  words ≠ [] → Forall (λ w, w ≠ EmptyString) words → (0 ≤ n)%Z →
  ∃ pool pairs,
    pool ≡ₚ repeat_list words (n `div` Z.of_nat (length words) + 1)
    ∧ generate_pairs py words n seed = Ok pairs
    ∧ pairs.*1 = take (Z.to_nat n) pool
    ∧ length pairs = Z.to_nat n.
Proof.
  intros Hne Hwords Hn.
  assert (0 < length words) as Hlen by (destruct words; [done | cbn; lia]).
  unfold generate_pairs. rewrite decide_False by lia.
  set (k := (n `div` Z.of_nat (length words) + 1)%Z).
  destruct (shuffle_spec (repeat_list words k) (seeded seed))
    as (pool & g1 & Hsh & Hperm).
  assert (Forall (λ w, w ≠ EmptyString) (take (Z.to_nat n) pool)) as Hpool.
  { apply Forall_take. rewrite Hperm. unfold repeat_list.
    induction (Z.to_nat k); [constructor|].
    rewrite join_replicate_S. by apply Forall_app. }
  destruct (draw_pairs_ok py _ g1 Hpool) as (pairs & g' & Hdraw & Hfst).
  exists pool, pairs. split; [done|].
  unfold eval. rewrite rand_bind_eq, Hsh. unfold Ok in *.
  unfold slice_to. rewrite decide_True by done. rewrite Hdraw.
  split; [done|]. split; [done|].
  rewrite <- (length_fmap fst), Hfst, length_take, Hperm, repeat_list_length.
  pose proof (pool_covers (length words) n Hlen Hn). subst k. lia.
Qed.
End Generate.

Lemma lower_char_idemp c : lower_char (lower_char c) = lower_char c.
Proof. by destruct c as [[] [] [] [] [] [] [] []]. Qed.

Lemma alphabet_lower c :
  c ∈ chars alphabet → islower c = true ∧ isupper c = false.
Proof.
  revert c. apply Forall_forall.
  apply (bool_decide_eq_true_1 (Forall _ _)). by vm_compute.
Qed.

Lemma occurrences_pos letter word c :
  c ∈ chars word → occurs letter c → 1 ≤ occurrences letter word.
Proof.
  intros Hc Ho. unfold occurrences.
  assert (c ∈ filter (occurs letter) (chars word)) as Hin
    by by apply list_elem_of_filter.
  destruct (filter (occurs letter) (chars word)); [|cbn; lia].
  by apply not_elem_of_nil in Hin.
Qed.

Lemma elem_of_repeat_list {A} (x : A) l k : x ∈ repeat_list l k → x ∈ l.
Proof.
  unfold repeat_list. intros (l' & Hx & Hl')%list_elem_of_join.
  by apply elem_of_replicate in Hl' as [-> _].
Qed.

(** ** The sampler: coverage, size and letters *)

Section SamplerClaims.
Context {G : Type} `{!RandomGen G} (py : process).

(** C7. For a non-empty list of words of length 3 to 20, a sample
    count [n >= 0] and a seed, [generate_samples] returns exactly [n]
    samples, each a user message followed by an assistant message
    built from a word of the list. *)
Theorem generate_samples_returns_n (words : list string) (n seed : Z) :
  words ≠ [] →
  Forall (λ w, 3 ≤ String.length w ≤ 20) words →
  (0 ≤ n)%Z →
  ∃ samples,
    generate_samples py words n seed = Ok samples
    ∧ Z.of_nat (length samples) = n
    ∧ Forall (λ s, role <$> messages s = ["user"; "assistant"]
                   ∧ ∃ word letter,
                       word ∈ words ∧ s = build_sample word letter)
             samples.
Proof.
  intros Hne Hlen Hn.
  assert (Forall (λ w, w ≠ EmptyString) words) as Hwords.
  { eapply Forall_impl; [exact Hlen|]. intros w Hw ->. cbn in Hw. lia. }
  destruct (generate_pairs_spec py words n seed Hne Hwords Hn)
    as (pool & pairs & Hperm & Hgen & Hfst & Hsize).
  exists ((λ p, build_sample p.1 p.2) <$> pairs).
  split; [by rewrite generate_samples_pairs, Hgen|].
  split; [rewrite length_fmap; lia|].
  apply Forall_fmap, Forall_forall. intros [word letter] Hp.
  split; [done|]. exists word, letter. split; [|done].
  assert (word ∈ pairs.*1) as Hw.
  { apply list_elem_of_fmap. by exists (word, letter). }
  rewrite Hfst in Hw.
  assert (word ∈ pool) as Hpool.
  { rewrite <- (take_drop (Z.to_nat n) pool). apply elem_of_app. by left. }
  rewrite Hperm in Hpool. by apply elem_of_repeat_list in Hpool.
Qed.

(** C2, as amended. For a non-empty list of non-empty words and
    [n >= 0], with [k = n / |words| + 1] copies of the list in the pool,
    the [n] generated pairs hold a word listed [c] times at most [k * c]
    times and at least [k * c - (k * |words| - n)] times: the shuffled
    pool holds it [k * c] times and the cut drops [k * |words| - n]
    entries. *)
Theorem coverage_bounds (words : list string) (n seed : Z) :
  words ≠ [] →
  Forall (λ w, w ≠ EmptyString) words →
  (0 ≤ n)%Z →
  ∃ pairs,
    generate_pairs py words n seed = Ok pairs
    ∧ Z.of_nat (length pairs) = n
    ∧ ∀ w,
        let k := (n `div` Z.of_nat (length words) + 1)%Z in
        let c := Z.of_nat (count_of w words) in
        let times := Z.of_nat (count_of w pairs.*1) in
        (k * c - (k * Z.of_nat (length words) - n) ≤ times ≤ k * c)%Z.
Proof.
  intros Hne Hwords Hn.
  destruct (generate_pairs_spec py words n seed Hne Hwords Hn)
    as (pool & pairs & Hperm & Hgen & Hfst & Hsize).
  exists pairs. split; [done|]. split; [lia|]. intros w k c times.
  assert (0 < length words) by (destruct words; [done | cbn; lia]).
  assert (0 ≤ n `div` Z.of_nat (length words))%Z by (apply Z.div_pos; lia).
  assert (Z.of_nat (count_of w pool) = k * c)%Z as Hpool.
  { rewrite (count_of_Permutation _ _ _ Hperm), count_of_repeat_list.
    rewrite Nat2Z.inj_mul, Z2Nat.id by lia. done. }
  assert (Z.of_nat (length pool) = k * Z.of_nat (length words))%Z as Hsizep.
  { rewrite Hperm, repeat_list_length, Nat2Z.inj_mul, Z2Nat.id by lia. done. }
  pose proof (take_drop (Z.to_nat n) pool) as Hsplit.
  apply (f_equal (count_of w)) in Hsplit. rewrite count_of_app in Hsplit.
  assert (count_of w (drop (Z.to_nat n) pool) ≤ length pool - Z.to_nat n)
    as Hdrop.
  { rewrite <- length_drop. apply length_filter. }
  assert (Z.to_nat n < length pool) as Hcut.
  { rewrite Hperm, repeat_list_length. by apply pool_covers. }
  subst times. rewrite Hfst. lia.
Qed.
End SamplerClaims.


Lemma generate_samples_returns_n_witness :
  ∃ samples,
    generate_samples (G := N) ascending ["straw"; "Mississippi"] 3 42
      = Ok samples
    ∧ Z.of_nat (length samples) = 3%Z
    ∧ Forall (λ s, role <$> messages s = ["user"; "assistant"]
                   ∧ ∃ word letter,
                       word ∈ ["straw"; "Mississippi"]
                       ∧ s = build_sample word letter)
             samples.
Proof.
  apply (generate_samples_returns_n (G := N) ascending
           ["straw"; "Mississippi"] 3 42).
  - discriminate.
  - repeat constructor; cbn; lia.
  - lia.
Defined.

Lemma coverage_bounds_witness :
  ∃ pairs,
    generate_pairs (G := N) ascending ["aaa"; "bbb"] 4 19 = Ok pairs
    ∧ Z.of_nat (length pairs) = 4%Z
    ∧ ∀ w,
        let k := (4 `div` Z.of_nat (length ["aaa"; "bbb"]) + 1)%Z in
        let c := Z.of_nat (count_of w ["aaa"; "bbb"]) in
        let times := Z.of_nat (count_of w pairs.*1) in
        (k * c - (k * Z.of_nat (length ["aaa"; "bbb"]) - 4) ≤ times ≤ k * c)%Z.
Proof.
  apply (coverage_bounds (G := N) ascending ["aaa"; "bbb"] 4 19).
  - discriminate.
  - repeat constructor; discriminate.
  - lia.
Defined.

(** With the words ["aaa"; "bbb"], two samples and a generator whose
    shuffle turns the pool aaa, bbb, aaa, bbb into aaa, aaa, bbb, bbb,
    both pairs are for "aaa" and "bbb" is never drawn. *)
Lemma even_coverage_fails : ¬ even_coverage.
Proof.
  intros Hclaim.
  specialize (Hclaim N radix ascending ["aaa"; "bbb"] 2%Z 19%Z
                [("aaa", "a"); ("aaa", "a")]).
  assert ("bbb" ∈ ["aaa"; "bbb"]) as Hin by (apply list_elem_of_In; cbn; tauto).
  destruct (Hclaim ltac:(discriminate) ltac:(lia) eq_refl "bbb" Hin)
    as [H | H]; vm_compute in H; discriminate H.
Qed.

(** ** The sampler and the renderer on words beyond ASCII *)

(** On the characters of a [string], the lower-case form of the
    code-point model is that of [Str.lower]. *)
Lemma lower_char_text (c : ascii) :
  Unicode.lower_char (N_of_ascii c) = [N_of_ascii (lower_char c)].
Proof. destruct c as [[] [] [] [] [] [] [] []]; by vm_compute. Qed.

Lemma lower_text (s : string) :
  Unicode.lower (Unicode.text s) = Unicode.text (lower s).
Proof.
  unfold Unicode.lower, Unicode.text. rewrite chars_lower.
  induction (chars s) as [|c cs IH]; [done|].
  rewrite !fmap_cons, bind_cons, IH, lower_char_text. done.
Qed.










Section UnicodeClaims.
Context {G : Type} `{!RandomGen G} (py : Unicode.process).





End UnicodeClaims.




(** The response to that pick: no line is a MATCH and the answer states
    0 times. *)
Example istanbul_response :
  Unicode.final_count Unicode.istanbul [105%N] = 0
  ∧ last (Unicode.response_lines Unicode.istanbul [105%N])
    = Some (Unicode.text nl ++ Unicode.text "**Answer: "
              ++ Unicode.text dq ++ Unicode.text "i" ++ Unicode.text dq
              ++ Unicode.text " appears 0 times in " ++ Unicode.text dq
              ++ Unicode.istanbul ++ Unicode.text dq ++ Unicode.text ".**").
Proof. split; by vm_compute. Qed.


(** An uppercase letter can be supplied as well: U+2102, the
    double-struck capital C, is alphabetic and uppercase and has no
    lower-case form, so the biased branch can return it as it is. *)
Example uppercase_letter_supplied :
  Forall (λ c, Unicode.isalpha c = true) ([8450%N] ++ Unicode.text "ab")
  ∧ Unicode.pick_letter_for_word (G := N) Unicode.sorted
      ([8450%N] ++ Unicode.text "ab") 18014398509481984%N
    = Ok ([8450%N], 0%N)
  ∧ Unicode.isupper 8450 = true.
Proof.
  split; [|by vm_compute].
  apply (bool_decide_eq_true_1 (Forall _ _)). by vm_compute.
Qed.






(** On a word that is not ASCII a longer letter can match: the two
    characters U+0069 U+0307 are the lower-case form of the first
    character of "İstanbul". *)
Example istanbul_two_character_letter :
  Unicode.final_count Unicode.istanbul [105%N; 775%N] = 1.
Proof. by vm_compute. Qed.

(** ** Reproducibility across interpreter processes *)

Lemma ascending_aab :
  set_order ascending (list_to_set (chars (lower "aab")))
  = ["a"; "b"]%char.
Proof. by vm_compute. Qed.

Lemma descending_aab :
  set_order descending (list_to_set (chars (lower "aab")))
  = ["b"; "a"]%char.
Proof. by vm_compute. Qed.

Section HashOrder.
Context {G : Type} `{!RandomGen G}.

(** One sample for the one-word list ["aab"]: the shuffle of the pool
    aab, aab takes one draw and leaves the pool as it was; the sample
    is then drawn from the state after that draw. *)
Lemma generate_one_aab (py : process) (seed : Z) :
  generate_samples py ["aab"] 1 seed
  = eval (draw_samples py ["aab"]) (randbelow 2 (seeded seed)).2.
Proof.
  unfold generate_samples. rewrite decide_False by (cbn; lia).
  change (repeat_list ["aab"] _) with ["aab"; "aab"].
  unfold eval at 1. rewrite rand_bind_eq.
  unfold shuffle. cbn [length Nat.sub shuffle_from].
  rewrite rand_bind_eq. unfold below.
  destruct (randbelow 2 (seeded seed)) as [j g1]. cbn [snd].
  cbv beta iota delta [Ok mret rand_ret].
  assert (swap ["aab"; "aab"] 1 j = ["aab"; "aab"]) as ->.
  { by destruct j as [|[|j]]. }
  reflexivity.
Qed.

(** C4. The seed does not fix the samples: for every generator and
    seed whose first letter pick takes the biased branch, a process
    that enumerates a set in ascending order and one that enumerates
    it in descending order return different samples for the same
    word list, sample count and seed. *)
Theorem same_seed_different_samples (seed : Z) :
  biased (randbelow 2 (seeded seed)).2 = true →
  generate_samples ascending ["aab"] 1 seed
  ≠ generate_samples descending ["aab"] 1 seed.
Proof.
  rewrite !generate_one_aab.
  generalize ((randbelow 2 (seeded seed)).2). intros g Hb.
  unfold eval, draw_samples. rewrite !rand_mapM_cons, !draw_sample_eq.
  unfold pick_letter_for_word. rewrite !rand_bind_eq.
  unfold biased in Hb. unfold random.
  destruct (next_float g) as [r g1]. cbn in Hb. cbn [Ok]. unfold Ok.
  rewrite Hb, ascending_aab, descending_aab.
  unfold choice. rewrite !decide_False by (cbn; lia).
  rewrite !rand_bind_eq. unfold below. cbn [fmap list_fmap length].
  pose proof (randbelow_lt 2 g1 ltac:(lia)) as Hlt.
  destruct (randbelow 2 g1) as [j g2]. cbn in Hlt.
  destruct j as [|[|j]]; [| |lia]; cbn; intros H; vm_compute in H;
    discriminate H.
Qed.
End HashOrder.

Lemma same_seed_different_samples_witness :
  generate_samples (G := N) ascending ["aab"] 1 42
  ≠ generate_samples (G := N) descending ["aab"] 1 42.
Proof.
  apply (same_seed_different_samples (G := N) 42). reflexivity.
Defined.

(** ** Loading the word list *)

Lemma filter_none {A} (P : A → Prop) `{!∀ x, Decision (P x)} (l : list A) :
  Forall (λ x, ¬ P x) l → filter P l = [].
Proof.
  induction 1 as [|x l Hx _ IH]; [done|].
  by rewrite filter_cons, decide_False.
Qed.

Section Loading.
Context {G : Type} `{!RandomGen G} (py : process).

(** C3. A file that has a non-blank line but no line of 3 to 20
    characters passes [load_words] with an empty list, and the run
    then stops in [generate_samples] with [ZeroDivisionError], not
    with the [ValueError] that names the file. *)
Theorem short_words_raise_ZeroDivisionError
    (path : string) (file : list string) (n seed : Z) :
  (∃ line, line ∈ file ∧ strip line ≠ EmptyString) →
  Forall (λ line, ¬ (3 ≤ String.length (strip line) ≤ 20)) file →
  load_words path file = Ok []
  ∧ main py path file n seed = Err ZeroDivisionError.
Proof.
  intros (line & Hin & Hline) Hshort.
  assert (load_words path file = Ok []) as Hload.
  { unfold load_words.
    set (lines := filter (λ line, strip line ≠ EmptyString) file).
    assert (line ∈ lines) as Hl by by apply list_elem_of_filter.
    rewrite decide_False.
    2:{ intros Hnil. apply fmap_nil_inv in Hnil. rewrite Hnil in Hl.
        by apply not_elem_of_nil in Hl. }
    f_equal. apply filter_none, Forall_fmap, Forall_forall.
    intros l Hl' [??]. apply list_elem_of_filter in Hl' as [_ Hl'].
    apply (proj1 (Forall_forall _ _) Hshort l Hl'). cbn in *. lia. }
  split; [done|]. unfold main. by rewrite Hload.
Qed.
End Loading.

Lemma short_words_raise_ZeroDivisionError_witness :
  load_words "words.txt" ["ab" +:+ nl; "to" +:+ nl] = Ok []
  ∧ main (G := N) ascending "words.txt" ["ab" +:+ nl; "to" +:+ nl] 5000 42
    = Err ZeroDivisionError.
Proof.
  apply (short_words_raise_ZeroDivisionError (G := N) ascending).
  - exists ("ab" +:+ nl). split; [left | by vm_compute].
  - repeat constructor; vm_compute; lia.
Defined.

(** * Further properties of the renderer *)

Lemma lower_length s : String.length (lower s) = String.length s.
Proof. induction s as [|c s IH]; cbn; [done | by rewrite IH]. Qed.

Lemma occurs_char letter c :
  occurs letter c ↔ lower letter = str1 (lower_char c).
Proof. unfold occurs. rewrite lower_str1. naive_solver. Qed.

Lemma spell_out_cons2 c d cs :
  chars (join "-" (str1 <$> c :: d :: cs))
  = c :: "-"%char :: chars (join "-" (str1 <$> d :: cs)).
Proof.
  change (join "-" (str1 <$> c :: d :: cs))
    with (str1 c +:+ "-" +:+ join "-" (str1 <$> d :: cs)).
  by rewrite !chars_app.
Qed.

Lemma spell_out_chars cs :
  let out := chars (join "-" (str1 <$> cs)) in
  length out = 2 * length cs - 1
  ∧ (∀ i c, cs !! i = Some c → out !! (2 * i) = Some c)
  ∧ (∀ i, S i < length cs → out !! (2 * i + 1) = Some "-"%char).
Proof.
  cbv zeta. induction cs as [|c cs IH].
  { split; [done|]. split; [intros i c Hi; by destruct i|].
    intros i Hi. cbn in Hi. lia. }
  destruct cs as [|d cs].
  { split; [done|]. split; [|intros i Hi; cbn in Hi; lia].
    intros [|i] c' Hi; cbn in Hi; by simplify_eq. }
  rewrite spell_out_cons2.
  destruct IH as (Hlen & Heven & Hodd). repeat split.
  - cbn [length] in *. lia.
  - intros [|i] c' Hi; cbn in Hi; [by simplify_eq|].
    replace (2 * S i) with (S (S (2 * i))) by lia. cbn [lookup list_lookup].
    by apply Heven.
  - intros [|i] Hi; [done|].
    replace (2 * S i + 1) with (S (S (2 * i + 1))) by lia.
    cbn [lookup list_lookup]. apply Hodd. cbn [length] in *. lia.
Qed.

(** X1. The spelled-out word keeps the characters of the word, in order
    and as written, at its even positions, has a hyphen between any two
    of them and nothing else: its length is [2 * len(word) - 1]. *)
Theorem spell_out_interleaves (word : string) :
  String.length (spell_out word) = 2 * String.length word - 1
  ∧ (∀ i c, chars word !! i = Some c →
            chars (spell_out word) !! (2 * i) = Some c)
  ∧ (∀ i, S i < String.length word →
          chars (spell_out word) !! (2 * i + 1) = Some "-"%char).
Proof.
  destruct (spell_out_chars (chars word)) as (Hlen & Heven & Hodd).
  unfold spell_out. rewrite <- !chars_length. repeat split; auto.
Qed.

(** X2. A position line determines what it reports: two MATCH lines, or
    two other lines, are equal only for the same index, character and
    count (and letter), and a MATCH line never equals another line,
    whatever the letter contains. *)
Theorem position_line_unambiguous
    (i i' : nat) (c c' : ascii) (k k' : nat) (letter letter' : string) :
  (match_line i c k = match_line i' c' k' → i = i' ∧ c = c' ∧ k = k')
  ∧ (other_line i c letter k = other_line i' c' letter' k' →
     i = i' ∧ c = c' ∧ k = k' ∧ letter = letter')
  ∧ match_line i c k ≠ other_line i' c' letter' k'.
Proof.
  split; [|split].
  - intros H. apply (f_equal read_position_line) in H.
    rewrite !read_match_line in H. by simplify_eq.
  - intros H. pose proof (f_equal read_position_line H) as H'.
    rewrite !read_other_line in H'. injection H' as -> -> ->.
    split; [done|]. split; [done|]. split; [done|].
    apply (f_equal chars) in H. rewrite !other_line_chars in H.
    do 3 apply app_inv_head in H. injection H as H.
    by apply app_inv_tail, chars_inj in H.
  - intros H. apply (f_equal read_position_line) in H.
    rewrite read_match_line, read_other_line in H. by simplify_eq.
Qed.

Lemma trace_shown_matches letter cs : ∀ i count,
  length (filter (λ s, shown_match s = true) (trace_shown letter i count cs))
  = length (filter (occurs letter) cs).
Proof.
  induction cs as [|c cs IH]; intros i count; [done|].
  cbn [trace_shown]. rewrite !filter_cons. cbn [shown_match].
  destruct (decide (occurs letter c)) as [Hc | Hc].
  - rewrite bool_decide_eq_true_2 by done. rewrite decide_True by done.
    cbn [length]. by rewrite IH.
  - rewrite bool_decide_eq_false_2 by done. rewrite decide_False by done.
    apply IH.
Qed.

(** X3. The total that the answer states is the number of position
    lines labelled MATCH, and it is at most the length of the word. *)
Theorem total_counts_match_lines (word letter : string) :
  ∃ ss answer,
    shown_lines word letter = Some ss
    ∧ build_assistant_response word letter
      = join nl (step1_line word :: step2_line :: position_lines word letter)
        +:+ nl +:+ answer
    ∧ read_answer_total letter answer
      = Some (length (filter (λ s, shown_match s = true) ss))
    ∧ length (filter (λ s, shown_match s = true) ss) ≤ String.length word.
Proof.
  exists (trace_shown letter 1 0 (chars word)),
         (answer_line letter (occurrences letter word) word).
  split; [apply shown_lines_eq|]. split; [apply response_ends_with_answer|].
  rewrite trace_shown_matches. split; [apply read_answer_line|].
  rewrite <- chars_length. apply length_filter.
Qed.

Lemma trace_shown_case letter letter' cs cs' :
  lower letter' = lower letter →
  Forall2 (λ c c', lower_char c = lower_char c') cs cs' →
  ∀ i count,
    shown_tally <$> trace_shown letter' i count cs'
    = shown_tally <$> trace_shown letter i count cs.
Proof.
  intros Hl Hcs. induction Hcs as [|c c' cs cs' Hc _ IH]; intros i count;
    [done|].
  cbn [trace_shown fmap list_fmap]. unfold shown_tally at 1 3. cbn.
  assert (bool_decide (occurs letter' c') = bool_decide (occurs letter c))
    as ->.
  { apply bool_decide_ext. rewrite !occurs_char. by rewrite Hl, Hc. }
  f_equal. apply IH.
Qed.

(** X4. Counting ignores case: when two letters agree after
    lower-casing, and two words agree character by character after
    lower-casing each character on its own, their responses show the
    same index, the same MATCH label and the same count on every
    position line. *)
Theorem counting_ignores_case (word word' letter letter' : string) :
  Forall2 (λ c c', lower (str1 c) = lower (str1 c'))
          (chars word) (chars word') →
  lower letter' = lower letter →
  ∃ ss ss',
    shown_lines word letter = Some ss
    ∧ shown_lines word' letter' = Some ss'
    ∧ shown_tally <$> ss' = shown_tally <$> ss.
Proof.
  intros Hw Hl.
  exists (trace_shown letter 1 0 (chars word)),
         (trace_shown letter' 1 0 (chars word')).
  split; [apply shown_lines_eq|]. split; [apply shown_lines_eq|].
  apply trace_shown_case; [done|].
  eapply Forall2_impl; [exact Hw|]. intros c c' Hc.
  change (str1 (lower_char c) = str1 (lower_char c')) in Hc.
  by injection Hc.
Qed.

Lemma counting_ignores_case_witness :
  ∃ ss ss',
    shown_lines "Mississippi" "s" = Some ss
    ∧ shown_lines "mISSISSIPPI" "S" = Some ss'
    ∧ shown_tally <$> ss' = shown_tally <$> ss.
Proof.
  apply (counting_ignores_case "Mississippi" "mISSISSIPPI" "s" "S").
  - repeat constructor.
  - reflexivity.
Defined.

(** X6. Samples for one-character letters are distinct unless word and
    letter are the same: the question alone determines both. *)
Theorem build_sample_inj (word word' : string) (c c' : ascii) :
  build_sample word (str1 c) = build_sample word' (str1 c') →
  word = word' ∧ c = c'.
Proof.
  intros H. unfold build_sample in H. injection H as Hc Hw _.
  split; [|exact Hc].
  apply (f_equal chars) in Hw. rewrite !chars_app in Hw.
  apply app_inv_head in Hw. rewrite !app_assoc in Hw.
  do 2 apply app_inv_tail in Hw. by apply chars_inj.
Qed.

Lemma build_sample_inj_witness :
  "straw" = "straw" ∧ "s"%char = "s"%char.
Proof. apply (build_sample_inj "straw" "straw" "s" "s"). reflexivity. Defined.

(** * Further properties of the sampler *)

Lemma alphabet_fixed c : c ∈ chars alphabet → lower_char c = c.
Proof.
  intros Hc. destruct (alphabet_lower c Hc) as [_ Hup].
  unfold lower_char. by rewrite Hup.
Qed.

Lemma lowered_fixed word c : c ∈ chars (lower word) → lower_char c = c.
Proof.
  rewrite chars_lower. intros (c0 & -> & _)%list_elem_of_fmap.
  apply lower_char_idemp.
Qed.

Section SamplerEdges.
Context {G : Type} `{!RandomGen G} (py : process).

(** Every outcome of a letter pick: it raises only [IndexError], only
    for the empty word in the biased branch; what it returns is one
    character that lower-casing leaves alone. *)
Lemma pick_outcome word (g : G) :
  match pick_letter_for_word py word g with
  | inl e => e = IndexError ∧ word = EmptyString ∧ biased g = true
  | inr (letter, _) =>
      ∃ c, letter = str1 c ∧ lower_char c = c
           ∧ if biased g then c ∈ chars (lower word)
             else c ∈ chars alphabet
  end.
Proof.
  destruct (biased g) eqn:Hb.
  - destruct (pick_biased py word g Hb) as [[-> ->] | (c & g' & -> & Hc)];
      [done|].
    exists c. split; [done|]. split; [by eapply lowered_fixed | done].
  - destruct (pick_unbiased py word g Hb) as (c & g' & -> & Hc).
    exists c. split; [done|]. split; [by apply alphabet_fixed | done].
Qed.

(** X7. For the empty word a pick raises [IndexError] in the biased
    branch and returns a letter of a-z in the other. *)
Theorem pick_on_empty_word (g : G) :
  if biased g
  then pick_letter_for_word py EmptyString g = Err IndexError
  else ∃ c g', pick_letter_for_word py EmptyString g = Ok (str1 c, g')
               ∧ c ∈ chars alphabet.
Proof.
  destruct (biased g) eqn:Hb.
  - destruct (pick_biased py EmptyString g Hb)
      as [[_ ->] | (c & g' & _ & Hc)]; [done|].
    by apply not_elem_of_nil in Hc.
  - by apply pick_unbiased.
Qed.

(** X8. For every non-empty word, alphabetic or not, a pick returns a
    one-character letter that is its own lower-case form, so the target
    the renderer compares with is the letter itself; the character comes
    from the lower-cased word in the biased branch and from a-z in the
    other. *)
Theorem picked_letter_is_own_lowercase (word : string) (g : G) :
  word ≠ EmptyString →
  ∃ c g', pick_letter_for_word py word g = Ok (str1 c, g')
          ∧ lower (str1 c) = str1 c
          ∧ if biased g then c ∈ chars (lower word)
            else c ∈ chars alphabet.
Proof.
  intros Hw. pose proof (pick_outcome word g) as Hout.
  destruct (pick_letter_for_word py word g) as [e | [letter g']].
  - by destruct Hout as (_ & ? & _).
  - destruct Hout as (c & -> & Hc & Hfrom). exists c, g'.
    split; [done|]. split; [by rewrite lower_str1, Hc | done].
Qed.

Lemma draw_pairs_outcome pool : ∀ (g : G),
  match draw_pairs py pool g with
  | inl e => e = IndexError ∧ EmptyString ∈ pool
  | inr (pairs, _) =>
      pairs.*1 = pool
      ∧ Forall (λ p, ∃ c, p.2 = str1 c ∧ lower_char c = c) pairs
  end.
Proof.
  induction pool as [|w pool IH]; intros g; [by split|].
  unfold draw_pairs in *. rewrite rand_mapM_cons, draw_pair_eq.
  pose proof (pick_outcome w g) as Hout.
  destruct (pick_letter_for_word py w g) as [e | [letter g1]].
  { destruct Hout as (-> & -> & _). split; [done | left]. }
  destruct Hout as (c & -> & Hc & _).
  specialize (IH g1). destruct (mapM (draw_pair py) pool g1) as [e | [ps g2]].
  - destruct IH as [-> Hin]. split; [done | by right].
  - destruct IH as [Hfst Hall]. split; [by cbn; rewrite Hfst|].
    constructor; [by exists c | done].
Qed.

Lemma slice_to_elem {A} (x : A) l n : x ∈ slice_to l n → x ∈ l.
Proof.
  assert (∀ m, x ∈ take m l → x ∈ l) as Htake.
  { intros m Hx. rewrite <- (take_drop m l). apply elem_of_app. by left. }
  unfold slice_to. destruct (decide (0 ≤ n)%Z); apply Htake.
Qed.

Lemma generate_pairs_nonpositive words (n seed : Z) :
  words ≠ [] → (n ≤ 0)%Z → generate_pairs py words n seed = Ok [].
Proof.
  intros Hne Hn.
  assert (0 < length words) as Hlen by (destruct words; [done | cbn; lia]).
  unfold generate_pairs. rewrite decide_False by lia.
  set (k := (n `div` Z.of_nat (length words) + 1)%Z).
  destruct (shuffle_spec (repeat_list words k) (seeded seed))
    as (pool & g1 & Hsh & Hperm).
  unfold eval. rewrite rand_bind_eq, Hsh. unfold Ok.
  assert (slice_to pool n = []) as ->; [|done].
  unfold slice_to. destruct (decide (0 ≤ n)%Z).
  { replace n with 0%Z by lia. apply take_0. }
  assert (k ≤ 0)%Z.
  { subst k. assert (n `div` Z.of_nat (length words) < 0)%Z; [|lia].
    apply Z.div_lt_upper_bound; lia. }
  assert (pool = []) as ->; [|apply take_nil].
  apply Permutation_nil_r. rewrite Hperm. unfold repeat_list.
  by replace (Z.to_nat k) with 0 by lia.
Qed.

(** X9. A sample count of zero or less is not an error: for a non-empty
    word list the result is the empty list of samples. *)
Theorem no_samples_for_nonpositive_count (words : list string) (n seed : Z) :
  words ≠ [] → (n ≤ 0)%Z → generate_samples py words n seed = Ok [].
Proof.
  intros Hne Hn.
  by rewrite generate_samples_pairs, generate_pairs_nonpositive.
Qed.

Lemma generate_pairs_outcome words (n seed : Z) :
  match generate_pairs py words n seed with
  | inl e =>
      (e = ZeroDivisionError ∧ words = [])
      ∨ (e = IndexError ∧ EmptyString ∈ words ∧ (0 < n)%Z)
  | inr pairs =>
      words ≠ []
      ∧ Forall (λ p, p.1 ∈ words ∧ ∃ c, p.2 = str1 c ∧ lower_char c = c)
               pairs
  end.
Proof.
  destruct (decide (words = [])) as [-> | Hne]; [by left|].
  destruct (decide (n ≤ 0)%Z) as [Hn | Hn].
  { rewrite generate_pairs_nonpositive by done. by split. }
  assert (0 < length words) as Hlen by (destruct words; [done | cbn; lia]).
  unfold generate_pairs. rewrite decide_False by lia.
  set (k := (n `div` Z.of_nat (length words) + 1)%Z).
  destruct (shuffle_spec (repeat_list words k) (seeded seed))
    as (pool & g1 & Hsh & Hperm).
  unfold eval. rewrite rand_bind_eq, Hsh. unfold Ok.
  assert (∀ w, w ∈ slice_to pool n → w ∈ words) as Hsub.
  { intros w Hw%slice_to_elem. rewrite Hperm in Hw.
    by apply elem_of_repeat_list in Hw. }
  pose proof (draw_pairs_outcome (slice_to pool n) g1) as Hout.
  destruct (draw_pairs py (slice_to pool n) g1) as [e | [pairs g2]].
  - destruct Hout as [-> Hin]. right. split; [done|]. split; [auto | lia].
  - destruct Hout as [Hfst Hall]. split; [done|].
    apply Forall_forall. intros [w l] Hp. split.
    + apply Hsub. rewrite <- Hfst. apply list_elem_of_fmap. by exists (w, l).
    + by apply (proj1 (Forall_forall _ _) Hall (w, l)).
Qed.

(** X10. [generate_samples] raises in two cases only: [ZeroDivisionError]
    for an empty word list, and [IndexError] when the list holds the
    empty string and at least one sample is asked for. *)
Theorem generate_samples_errors (words : list string) (n seed : Z) (e : exn) :
  generate_samples py words n seed = Err e →
  (e = ZeroDivisionError ∧ words = [])
  ∨ (e = IndexError ∧ EmptyString ∈ words ∧ (0 < n)%Z).
Proof.
  rewrite generate_samples_pairs.
  pose proof (generate_pairs_outcome words n seed) as Hout.
  destruct (generate_pairs py words n seed) as [e' | pairs]; [|done].
  intros [= <-]. exact Hout.
Qed.
End SamplerEdges.

Lemma picked_letter_is_own_lowercase_witness :
  ∃ c g', pick_letter_for_word (G := N) ascending "R2-D2" 0%N = Ok (str1 c, g')
          ∧ lower (str1 c) = str1 c
          ∧ if biased 0%N then c ∈ chars (lower "R2-D2")
            else c ∈ chars alphabet.
Proof.
  apply (picked_letter_is_own_lowercase (G := N) ascending "R2-D2" 0%N).
  discriminate.
Defined.

Lemma no_samples_for_nonpositive_count_witness :
  generate_samples (G := N) ascending ["straw"; "berry"] (-3) 42 = Ok [].
Proof.
  apply (no_samples_for_nonpositive_count (G := N) ascending
           ["straw"; "berry"] (-3) 42).
  - discriminate.
  - lia.
Defined.

Lemma generate_samples_errors_witness :
  (IndexError = ZeroDivisionError ∧ [EmptyString; "straw"] = [])
  ∨ (IndexError = IndexError
     ∧ EmptyString ∈ [EmptyString; "straw"] ∧ (0 < 2)%Z).
Proof.
  apply (generate_samples_errors (G := N) ascending
           [EmptyString; "straw"] 2 0 IndexError).
  reflexivity.
Defined.

Section Dataset.
Context {G : Type} `{!RandomGen G} (py : process).

(** X11. Every sample of a generated dataset is right: it is about a
    word of the list and a one-character letter that is its own
    lower-case form, its question names that letter and word, and the
    answer that ends its response reads as the number of
    case-insensitive occurrences of the letter in the word. *)
Theorem generated_samples_are_correct (words : list string) (n seed : Z) :
  words ≠ [] →
  Forall (λ w, w ≠ EmptyString) words →
  (0 ≤ n)%Z →
  ∃ samples,
    generate_samples py words n seed = Ok samples
    ∧ Z.of_nat (length samples) = n
    ∧ Forall
        (λ s, ∃ word c answer,
           word ∈ words
           ∧ lower (str1 c) = str1 c
           ∧ messages s
             = [ {| role := "user";
                    content :=
                      "How many times does the letter " +:+ dq +:+ str1 c
                        +:+ dq +:+ " appear in " +:+ dq +:+ word +:+ dq
                        +:+ "?" |};
                 {| role := "assistant";
                    content :=
                      join nl (step1_line word :: step2_line
                                 :: position_lines word (str1 c))
                        +:+ nl +:+ answer |} ]
           ∧ read_answer_total (str1 c) answer
             = Some (occurrences (str1 c) word))
        samples.
Proof.
  intros Hne Hwords Hn.
  destruct (generate_pairs_spec py words n seed Hne Hwords Hn)
    as (pool & pairs & _ & Hgen & _ & Hsize).
  pose proof (generate_pairs_outcome py words n seed) as Hout.
  rewrite Hgen in Hout. destruct Hout as [_ Hall].
  exists ((λ p, build_sample p.1 p.2) <$> pairs).
  split; [by rewrite generate_samples_pairs, Hgen|].
  split; [rewrite length_fmap; lia|].
  apply Forall_fmap. eapply Forall_impl; [exact Hall|].
  intros [word letter] [Hin (c & Hl & Hc)]. cbn [fst snd] in *. subst letter.
  exists word, c, (answer_line (str1 c) (occurrences (str1 c) word) word).
  split; [done|]. split; [by rewrite lower_str1, Hc|].
  split; [|apply read_answer_line].
  unfold build_sample. cbn [messages]. by rewrite response_ends_with_answer.
Qed.
End Dataset.

Lemma generated_samples_are_correct_witness :
  ∃ samples,
    generate_samples (G := N) descending ["straw"; "Mississippi"] 3 42
      = Ok samples
    ∧ Z.of_nat (length samples) = 3%Z
    ∧ Forall
        (λ s, ∃ word c answer,
           word ∈ ["straw"; "Mississippi"]
           ∧ lower (str1 c) = str1 c
           ∧ messages s
             = [ {| role := "user";
                    content :=
                      "How many times does the letter " +:+ dq +:+ str1 c
                        +:+ dq +:+ " appear in " +:+ dq +:+ word +:+ dq
                        +:+ "?" |};
                 {| role := "assistant";
                    content :=
                      join nl (step1_line word :: step2_line
                                 :: position_lines word (str1 c))
                        +:+ nl +:+ answer |} ]
           ∧ read_answer_total (str1 c) answer
             = Some (occurrences (str1 c) word))
        samples.
Proof.
  apply (generated_samples_are_correct (G := N) descending
           ["straw"; "Mississippi"] 3 42).
  - discriminate.
  - repeat constructor; discriminate.
  - lia.
Defined.

(** * Properties of the loader *)

(** ** Stripping *)

Lemma chars_rev_app s t :
  chars (String.rev_app s t) = reverse (chars s) ++ chars t.
Proof.
  revert t. induction s as [|c s IH]; intros t; [done|].
  cbn [String.rev_app]. rewrite IH.
  change (chars (String c s)) with (c :: chars s).
  change (chars (String c t)) with (c :: chars t).
  by rewrite reverse_cons, <- app_assoc.
Qed.

Lemma chars_rev s : chars (String.rev s) = reverse (chars s).
Proof. unfold String.rev. by rewrite chars_rev_app, app_nil_r. Qed.

Lemma lstrip_spec s :
  ∃ pre, chars s = pre ++ chars (lstrip s)
         ∧ Forall (λ c, isspace c = true) pre
         ∧ ∀ c r, chars (lstrip s) = c :: r → isspace c = false.
Proof.
  induction s as [|c s (pre & Hs & Hpre & Hhd)].
  { exists []. by repeat split. }
  cbn [lstrip]. destruct (isspace c) eqn:Hc.
  - exists (c :: pre). split; [|split; [by constructor | done]].
    change (chars (String c s)) with (c :: chars s). by rewrite Hs.
  - exists []. split; [done|]. split; [constructor|].
    intros c' r [= <- _]. done.
Qed.

Lemma rstrip_spec s :
  ∃ suf, chars s = chars (rstrip s) ++ suf
         ∧ Forall (λ c, isspace c = true) suf
         ∧ ∀ r c, chars (rstrip s) = r ++ [c] → isspace c = false.
Proof.
  destruct (lstrip_spec (String.rev s)) as (pre & Hs & Hpre & Hhd).
  exists (reverse pre). unfold rstrip. rewrite chars_rev in *.
  split; [|split].
  - apply (f_equal reverse) in Hs.
    by rewrite reverse_involutive, reverse_app in Hs.
  - by apply Forall_reverse.
  - intros r c Hr. apply (f_equal reverse) in Hr.
    rewrite reverse_involutive, reverse_snoc in Hr. by eapply Hhd.
Qed.

(** What [strip] leaves: the string between a run of leading and a run
    of trailing whitespace, with no whitespace at either end. *)
Lemma strip_spec s :
  ∃ pre suf,
    chars s = pre ++ chars (strip s) ++ suf
    ∧ Forall (λ c, isspace c = true) pre
    ∧ Forall (λ c, isspace c = true) suf
    ∧ (∀ c r, chars (strip s) = c :: r → isspace c = false)
    ∧ (∀ r c, chars (strip s) = r ++ [c] → isspace c = false).
Proof.
  destruct (lstrip_spec s) as (pre & Hs & Hpre & Hhd).
  destruct (rstrip_spec (lstrip s)) as (suf & Hl & Hsuf & Hlast).
  exists pre, suf. unfold strip. repeat split; try done.
  - by rewrite Hs, Hl.
  - intros c r Hr. apply (Hhd c (r ++ suf)). by rewrite Hl, Hr.
Qed.

Lemma strip_empty_iff s :
  strip s = EmptyString ↔ Forall (λ c, isspace c = true) (chars s).
Proof.
  destruct (strip_spec s) as (pre & suf & Hs & Hpre & Hsuf & Hhd & _).
  split.
  - intros H. rewrite H in Hs. rewrite Hs. by apply Forall_app.
  - intros Hall. rewrite Hs in Hall.
    apply Forall_app in Hall as [_ Hall]. apply Forall_app in Hall as [Hall _].
    destruct (chars (strip s)) as [|c r] eqn:Hc; [by apply chars_inj|].
    apply Forall_cons in Hall as [Hsp _].
    by rewrite (Hhd c r eq_refl) in Hsp.
Qed.

Lemma strip_fixed t :
  (∀ c r, chars t = c :: r → isspace c = false) →
  (∀ r c, chars t = r ++ [c] → isspace c = false) →
  strip t = t.
Proof.
  intros Hhd Hlast.
  assert (∀ u, (∀ c r, chars u = c :: r → isspace c = false) → lstrip u = u)
    as Hl.
  { intros [|c u] Hu; [done|]. cbn. by rewrite (Hu c (chars u)). }
  unfold strip. rewrite (Hl t Hhd). unfold rstrip. rewrite Hl.
  - apply chars_inj. by rewrite !chars_rev, reverse_involutive.
  - intros c r Hr. rewrite chars_rev in Hr. apply (Hlast (reverse r)).
    apply (f_equal reverse) in Hr.
    by rewrite reverse_involutive, reverse_cons in Hr.
Qed.

Lemma strip_idemp s : strip (strip s) = strip s.
Proof.
  destruct (strip_spec s) as (_ & _ & _ & _ & _ & Hhd & Hlast).
  by apply strip_fixed.
Qed.

(** ** [load_words] *)

Lemma load_words_eq path file :
  load_words path file
  = if decide (Forall blank file)
    then Err (ValueError ("No words found in " +:+ path))
    else Ok (filter admissible
               (strip <$> filter (λ line, strip line ≠ EmptyString) file)).
Proof.
  unfold load_words.
  set (lines := filter (λ line, strip line ≠ EmptyString) file).
  destruct (decide (Forall blank file)) as [Hb | Hb].
  - rewrite decide_True; [done|].
    assert (lines = []) as ->; [|done].
    apply filter_none. eapply Forall_impl; [exact Hb|].
    intros line Hline Hne. by apply Hne, strip_empty_iff.
  - rewrite decide_False; [done|].
    intros Hnil. apply fmap_nil_inv in Hnil. apply Hb, Forall_forall.
    intros line Hin. apply strip_empty_iff.
    destruct (decide (strip line = EmptyString)) as [|Hne]; [done|].
    assert (line ∈ lines) as Hl by by apply list_elem_of_filter.
    rewrite Hnil in Hl. by apply not_elem_of_nil in Hl.
Qed.

(** X12. [load_words] fails in two ways only: with the input/output
    error when the file cannot be opened or decoded, and, once its lines
    are read, with the [ValueError] that names the path, exactly when
    every line is blank (an empty file included). *)
Theorem load_words_raises_iff_blank (path : string)
    (file : option (list string)) :
  match file with
  | None => load_words_file path file = inl (Unreadable path)
  | Some lines =>
      (Forall blank lines
       ↔ load_words_file path file
         = inl (Raised (ValueError ("No words found in " +:+ path))))
      ∧ (¬ Forall blank lines → ∃ words, load_words_file path file = inr words)
  end.
Proof.
  destruct file as [lines|]; [|done].
  unfold load_words_file. rewrite load_words_eq.
  destruct (decide (Forall blank lines)) as [Hb | Hb].
  - split; [done|]. intros Hnb. contradiction.
  - split; [split; [intros; contradiction | discriminate]|].
    intros _. by eexists.
Qed.

(** X13. Every word that [load_words] returns has 3 to 20 characters,
    carries no whitespace at either end (stripping it again changes
    nothing) and is the stripped form of a line of the file. *)
Theorem loaded_words_are_clean
    (path : string) (file words : list string) :
  load_words path file = Ok words →
  Forall (λ w, admissible w
               ∧ strip w = w
               ∧ (∀ c r, chars w = c :: r → isspace c = false)
               ∧ (∀ r c, chars w = r ++ [c] → isspace c = false)
               ∧ ∃ line, line ∈ file ∧ strip line = w)
         words.
Proof.
  rewrite load_words_eq. destruct (decide (Forall blank file)); [done|].
  intros [= <-]. apply Forall_forall. intros w Hw.
  apply list_elem_of_filter in Hw as [Hadm Hw].
  apply list_elem_of_fmap in Hw as (line & -> & Hline).
  apply list_elem_of_filter in Hline as [_ Hline].
  destruct (strip_spec line) as (_ & _ & _ & _ & _ & Hhd & Hlast).
  split; [done|]. split; [apply strip_idemp|].
  split; [done|]. split; [done|]. by exists line.
Qed.

Lemma filter_fmap_length {A B} (f : A → B) (P : B → Prop)
    `{!∀ y, Decision (P y)} (l : list A) :
  length (filter P (f <$> l)) = length (filter (λ x, P (f x)) l).
Proof.
  induction l as [|x l IH]; [done|]. cbn [fmap list_fmap].
  rewrite !filter_cons. destruct (decide (P (f x))); cbn; by rewrite IH.
Qed.

(** X14. [load_words] removes no duplicates and keeps the order of the
    file: the result is a subsequence of the stripped lines, and a word
    of admissible length occurs in it once for every line it is the
    stripped form of. *)
Theorem load_words_keeps_duplicates
    (path : string) (file words : list string) :
  load_words path file = Ok words →
  words `sublist_of` (strip <$> file)
  ∧ ∀ w, admissible w →
         count_of w words = length (filter (λ line, strip line = w) file).
Proof.
  rewrite load_words_eq. destruct (decide (Forall blank file)); [done|].
  intros [= <-]. split.
  - etrans; [apply sublist_filter|]. apply fmap_sublist, sublist_filter.
  - intros w Hw. unfold count_of.
    rewrite list_filter_filter, filter_fmap_length, list_filter_filter.
    f_equal. apply list_filter_iff. intros line. split.
    + by intros [[-> _] _].
    + intros <-. repeat split; try apply Hw.
      intros Hnil. rewrite Hnil in Hw. destruct Hw as [Hw _]. cbn in Hw. lia.
Qed.

Lemma filter_all {A} (P : A → Prop) `{!∀ x, Decision (P x)} (l : list A) :
  Forall P l → filter P l = l.
Proof.
  induction 1 as [|x l Hx _ IH]; [done|].
  by rewrite filter_cons, decide_True, IH.
Qed.

Lemma fmap_fixed {A} (f : A → A) (l : list A) :
  Forall (λ x, f x = x) l → f <$> l = l.
Proof. induction 1 as [|x l Hx _ IH]; [done|]. cbn. by rewrite Hx, IH. Qed.

(** X15. Loading is idempotent: the words returned, given back as the
    lines of a file, load to the same list (unless there are none, when
    the second load raises). *)
Theorem load_words_idempotent
    (path path' : string) (file words : list string) :
  load_words path file = Ok words →
  words ≠ [] →
  load_words path' words = Ok words.
Proof.
  intros Hload Hne.
  pose proof Hload as Hclean. rewrite load_words_eq in Hclean.
  destruct (decide (Forall blank file)); [done|].
  injection Hclean as Hwords.
  assert (Forall (λ w, admissible w ∧ strip w = w) words) as Hall.
  { rewrite <- Hwords. apply Forall_forall. intros w Hw.
    apply list_elem_of_filter in Hw as [Hadm Hw].
    apply list_elem_of_fmap in Hw as (line & -> & _).
    split; [done | apply strip_idemp]. }
  clear Hwords Hload. rewrite load_words_eq.
  assert (Forall (λ w, strip w ≠ EmptyString) words) as Hnb.
  { eapply Forall_impl; [exact Hall|]. intros w [[Hlen _] Hfix] Hb.
    rewrite Hfix in Hb. rewrite Hb in Hlen. cbn in Hlen. lia. }
  rewrite decide_False.
  2:{ intros Hb. destruct words as [|w ws]; [done|].
      apply Forall_cons in Hb as [Hb _]. apply Forall_cons in Hnb as [Hw _].
      by apply Hw, strip_empty_iff. }
  f_equal. rewrite (filter_all _ _ Hnb).
  rewrite fmap_fixed by (eapply Forall_impl; [exact Hall|]; by intros w [_ ?]).
  apply filter_all. eapply Forall_impl; [exact Hall|]. by intros w [? _].
Qed.

Lemma loaded_words_are_clean_witness :
  Forall (λ w, admissible w
               ∧ strip w = w
               ∧ (∀ c r, chars w = c :: r → isspace c = false)
               ∧ (∀ r c, chars w = r ++ [c] → isspace c = false)
               ∧ ∃ line, line ∈ ["  straw " +:+ nl; nl; "ab" +:+ nl; "straw"]
                         ∧ strip line = w)
         ["straw"; "straw"].
Proof.
  apply (loaded_words_are_clean "words.txt"
           ["  straw " +:+ nl; nl; "ab" +:+ nl; "straw"]).
  reflexivity.
Defined.

Lemma load_words_keeps_duplicates_witness :
  ["straw"; "straw"]
    `sublist_of` (strip <$> ["  straw " +:+ nl; nl; "ab" +:+ nl; "straw"])
  ∧ ∀ w, admissible w →
         count_of w ["straw"; "straw"]
         = length (filter (λ line, strip line = w)
                          ["  straw " +:+ nl; nl; "ab" +:+ nl; "straw"]).
Proof.
  apply (load_words_keeps_duplicates "words.txt"
           ["  straw " +:+ nl; nl; "ab" +:+ nl; "straw"]).
  reflexivity.
Defined.

Lemma load_words_idempotent_witness :
  load_words "again.txt" ["straw"; "straw"] = Ok ["straw"; "straw"].
Proof.
  apply (load_words_idempotent "words.txt" "again.txt"
           ["  straw " +:+ nl; nl; "ab" +:+ nl; "straw"]).
  - reflexivity.
  - discriminate.
Defined.

(** * Properties of the entry point *)

Section MainFacts.
Context {G : Type} `{!RandomGen G} (py : process).

(** The outcomes of [main] on lines already read. *)
Lemma main_result (path : string) (file : list string) (n seed : Z) :
  match main py path file n seed with
  | inl e =>
      (e = ValueError ("No words found in " +:+ path) ∧ Forall blank file)
      ∨ (e = ZeroDivisionError
         ∧ ¬ Forall blank file
         ∧ Forall (λ line, ¬ admissible (strip line)) file)
  | inr samples =>
      length samples = Z.to_nat n
      ∧ ∃ line, line ∈ file ∧ admissible (strip line)
  end.
Proof.
  unfold main. rewrite load_words_eq.
  destruct (decide (Forall blank file)) as [Hb | Hb]; [by left|].
  unfold Ok at 1. cbv beta iota.
  set (words := filter admissible _).
  assert (∀ w, w ∈ words → admissible w ∧ ∃ line, line ∈ file ∧ strip line = w)
    as Hwords.
  { intros w [Hadm Hw]%list_elem_of_filter. split; [done|].
    apply list_elem_of_fmap in Hw as (line & -> & [_ Hl]%list_elem_of_filter).
    by exists line. }
  destruct (decide (words = [])) as [Hnil | Hne].
  { rewrite Hnil. right. split; [done|]. split; [done|].
    apply Forall_forall. intros line Hin Hadm.
    assert (strip line ∈ words) as Hw.
    { apply list_elem_of_filter. split; [done|].
      apply list_elem_of_fmap. exists line. split; [done|].
      apply list_elem_of_filter. split; [|done].
      intros Hs. rewrite Hs in Hadm. destruct Hadm as [Hlen _].
      cbn in Hlen. lia. }
    rewrite Hnil in Hw. by apply not_elem_of_nil in Hw. }
  assert (∃ line, line ∈ file ∧ admissible (strip line)) as Hline.
  { destruct words as [|w ws] eqn:Hw; [done|].
    destruct (Hwords w) as [Hadm (line & Hin & Hs)]; [left|].
    exists line. by rewrite Hs. }
  rewrite generate_samples_pairs.
  destruct (decide (n ≤ 0)%Z) as [Hn | Hn].
  { rewrite generate_pairs_nonpositive by done. split; [cbn; lia | done]. }
  destruct (generate_pairs_spec py words n seed) as (_ & pairs & _ & -> & _ & Hlen);
    [done | | lia |].
  { apply Forall_forall. intros w Hw ->.
    destruct (Hwords _ Hw) as [[Hlen _] _]. cbn in Hlen. lia. }
  split; [by rewrite length_fmap | done].
Qed.

Variable fails : event → bool.

Lemma push_to_hub_nil repo_id token :
  push_to_hub fails [] repo_id token
  = if fails (FromList []) then
      ([FromList []], inl (LibraryRaised (FromList [])))
    else if fails (SaveToDisk [] ("dataset/" +:+ repo_id)) then
      ([FromList []; SaveToDisk [] ("dataset/" +:+ repo_id)],
       inl (LibraryRaised (SaveToDisk [] ("dataset/" +:+ repo_id))))
    else
      ([FromList []; SaveToDisk [] ("dataset/" +:+ repo_id); PrintPreview []],
       inl (Raised IndexError)).
Proof.
  unfold push_to_hub, call, mbind, eff_bind. cbn.
  destruct (fails (FromList [])); [done|].
  by destruct (fails (SaveToDisk [] ("dataset/" +:+ repo_id))).
Qed.

(** X17. [push_to_hub] with no samples never uploads and never returns:
    whatever the library calls do, the call of [dataset.push_to_hub] is
    not reached; when they all succeed the empty dataset is written to
    disk and previewed, and [samples[0]] then raises [IndexError]. *)
Theorem push_to_hub_without_samples (repo_id : string) (token : option string) :
  let run := push_to_hub fails [] repo_id token in
  (∀ ds r t, PushToHub ds r t ∉ run.1)
  ∧ (∀ u, run.2 ≠ inr u)
  ∧ ((∀ ev, fails ev = false) →
     run = ([FromList []; SaveToDisk [] ("dataset/" +:+ repo_id);
             PrintPreview []],
            inl (Raised IndexError))).
Proof.
  cbv zeta. rewrite push_to_hub_nil. split; [|split].
  - intros ds r t Hin.
    destruct (fails (FromList []));
      [|destruct (fails (SaveToDisk [] ("dataset/" +:+ repo_id)))];
      cbn in Hin;
      repeat (apply elem_of_cons in Hin as [Hin | Hin]; [discriminate Hin|]);
      by apply not_elem_of_nil in Hin.
  - intros u.
    destruct (fails (FromList []));
      [|destruct (fails (SaveToDisk [] ("dataset/" +:+ repo_id)))]; done.
  - intros Hok. by rewrite !Hok.
Qed.

(** What an upload in the trace of [push_to_hub] tells. *)
Lemma push_to_hub_upload samples repo_id token ds r t :
  PushToHub ds r t ∈ (push_to_hub fails samples repo_id token).1 →
  ds = samples ∧ r = repo_id ∧ t = token ∧ samples ≠ []
  ∧ SaveToDisk samples ("dataset/" +:+ repo_id)
    ∈ (push_to_hub fails samples repo_id token).1.
Proof.
  destruct samples as [|s samples].
  { rewrite push_to_hub_nil. intros Hin.
    destruct (fails (FromList []));
      [|destruct (fails (SaveToDisk [] ("dataset/" +:+ repo_id)))];
      cbn in Hin;
      repeat (apply elem_of_cons in Hin as [Hin | Hin]; [discriminate Hin|]);
      by apply not_elem_of_nil in Hin. }
  unfold push_to_hub, call, emit, mbind, eff_bind. cbn.
  destruct (fails (FromList (s :: samples)));
    [|destruct (fails (SaveToDisk (s :: samples) ("dataset/" +:+ repo_id)));
      [|destruct (fails (PushToHub (s :: samples) repo_id token))]];
    cbn; intros Hin;
    repeat (apply elem_of_cons in Hin as [Hin | Hin];
            [try discriminate Hin|]);
    try (by apply not_elem_of_nil in Hin);
    injection Hin as -> -> ->;
    (split; [done|]); (split; [done|]); (split; [done|]); (split; [done|]);
    apply list_elem_of_In; cbn; tauto.
Qed.

Lemma main_effects_eq (a : args) (file : option (list string)) :
  main_effects py fails a file
  = let p1 := Print ("Loading words from " +:+ arg_words a +:+ "...") in
    match file with
    | None => ([p1], inl (Unreadable (arg_words a)))
    | Some lines =>
        match load_words (arg_words a) lines with
        | inl e => ([p1], inl (Raised e))
        | inr words =>
            let p2 := Print ("Loaded " +:+ pretty (length words) +:+ " words.") in
            let p3 := Print ("Generating " +:+ pretty (arg_n_samples a)
                               +:+ " samples (seed=" +:+ pretty (arg_seed a)
                               +:+ ")...") in
            match generate_samples py words (arg_n_samples a) (arg_seed a) with
            | inl e => ([p1; p2; p3], inl (Raised e))
            | inr samples =>
                let p4 := Print ("Generated " +:+ pretty (length samples)
                                   +:+ " samples.") in
                let '(t, r) :=
                  push_to_hub fails samples (arg_output a) (arg_token a) in
                ([p1; p2; p3; p4] ++ t, r)
            end
        end
    end.
Proof.
  unfold main_effects, mbind, eff_bind, emit, lift, throw, mret, eff_ret.
  cbv zeta.
  destruct file as [lines|]; [|done].
  destruct (load_words (arg_words a) lines) as [e | words]; [done|].
  destruct (generate_samples py words _ _) as [e | samples]; [done|].
  by destruct (push_to_hub fails samples _ _) as [t r].
Qed.

(** X16. A run of [main] can end before the upload step in three ways
    only: the input/output error when the words file cannot be opened
    or decoded; the [ValueError] naming the path when every line is
    blank; [ZeroDivisionError], after "Loaded 0 words." and the
    "Generating" line, when some line is not blank but none has 3 to 20
    characters after stripping.  Otherwise it prints its four progress
    lines and hands exactly [max(n_samples, 0)] samples to
    [push_to_hub]; generation never raises [IndexError]. *)
Theorem run_outcome (a : args) (file : option (list string)) :
  let p1 := Print ("Loading words from " +:+ arg_words a +:+ "...") in
  let p3 := Print ("Generating " +:+ pretty (arg_n_samples a)
                     +:+ " samples (seed=" +:+ pretty (arg_seed a) +:+ ")...") in
  match file with
  | None =>
      main_effects py fails a file = ([p1], inl (Unreadable (arg_words a)))
  | Some lines =>
      (Forall blank lines
       ∧ main_effects py fails a file
         = ([p1],
            inl (Raised (ValueError ("No words found in " +:+ arg_words a)))))
      ∨ (¬ Forall blank lines
         ∧ Forall (λ line, ¬ admissible (strip line)) lines
         ∧ main_effects py fails a file
           = ([p1; Print ("Loaded " +:+ pretty 0 +:+ " words."); p3],
              inl (Raised ZeroDivisionError)))
      ∨ ((∃ line, line ∈ lines ∧ admissible (strip line))
         ∧ ∃ words samples,
             load_words (arg_words a) lines = Ok words
             ∧ generate_samples py words (arg_n_samples a) (arg_seed a)
               = Ok samples
             ∧ length samples = Z.to_nat (arg_n_samples a)
             ∧ main_effects py fails a file
               = ([p1;
                   Print ("Loaded " +:+ pretty (length words) +:+ " words.");
                   p3;
                   Print ("Generated " +:+ pretty (length samples)
                            +:+ " samples.")]
                  ++ (push_to_hub fails samples (arg_output a)
                        (arg_token a)).1,
                  (push_to_hub fails samples (arg_output a) (arg_token a)).2))
  end.
Proof.
  cbv zeta. rewrite main_effects_eq. cbv zeta.
  destruct file as [lines|]; [|done].
  pose proof (main_result (arg_words a) lines (arg_n_samples a) (arg_seed a))
    as Hmain.
  unfold main in Hmain.
  pose proof (load_words_eq (arg_words a) lines) as Hload.
  destruct (load_words (arg_words a) lines) as [e | words].
  { left. destruct (decide (Forall blank lines)); [|done].
    injection Hload as ->. by split. }
  destruct (decide (Forall blank lines)) as [|Hnb]; [done|]. clear Hload.
  pose proof (generate_pairs_outcome py words (arg_n_samples a) (arg_seed a))
    as Hpairs.
  pose proof (generate_samples_pairs py words (arg_n_samples a) (arg_seed a))
    as Hgs.
  destruct (generate_pairs py words _ _) as [e | pairs];
    rewrite Hgs in Hmain |- *; rewrite ?Hgs.
  - right. left.
    destruct Hmain as [[_ Hb] | (-> & _ & Hshort)]; [done|].
    destruct Hpairs as [[_ ->] | (? & _)]; [|done].
    by repeat split.
  - right. right. destruct Hmain as [Hlen Hline]. split; [done|].
    eexists words, _. split; [done|]. split; [exact Hgs|]. split; [done|].
    by destruct (push_to_hub fails _ _ _).
Qed.

(** An upload in the trace of [main] comes with a generated, non-empty
    list of samples. *)
Lemma main_effects_pushed (a : args) (file : option (list string))
    (ds : list sample) (r : string) (t : option string) :
  PushToHub ds r t ∈ (main_effects py fails a file).1 →
  ∃ words,
    generate_samples py words (arg_n_samples a) (arg_seed a) = Ok ds
    ∧ ds ≠ [].
Proof.
  rewrite main_effects_eq. cbv zeta.
  assert (∀ l : list event,
            Forall (λ ev, ∃ text, ev = Print text) l →
            PushToHub ds r t ∉ l) as Hprints.
  { intros l Hl Hin. apply (proj1 (Forall_forall _ _) Hl) in Hin as [? [=]]. }
  destruct file as [lines|].
  2:{ intros Hin. exfalso. eapply Hprints; [|exact Hin].
      repeat first [apply Forall_nil_2 | apply Forall_cons_2; [by eexists|]]. }
  destruct (load_words (arg_words a) lines) as [e | words].
  { intros Hin. exfalso. eapply Hprints; [|exact Hin].
    repeat first [apply Forall_nil_2 | apply Forall_cons_2; [by eexists|]]. }
  destruct (generate_samples py words _ _) as [e | samples] eqn:Hgen.
  { intros Hin. exfalso. eapply Hprints; [|exact Hin].
    repeat first [apply Forall_nil_2 | apply Forall_cons_2; [by eexists|]]. }
  pose proof (push_to_hub_upload samples (arg_output a) (arg_token a) ds r t)
    as Hpush.
  destruct (push_to_hub fails samples _ _) as [tr res]. cbn [fst] in *.
  intros Hin. apply elem_of_app in Hin as [Hin | Hin].
  { exfalso. eapply Hprints; [|exact Hin]. repeat first [apply Forall_nil_2 | apply Forall_cons_2; [by eexists|]]. }
  destruct (Hpush Hin) as (-> & _ & _ & Hne & _). by exists words.
Qed.

(** X18. An upload is all or nothing: whatever [main] pushes to the hub
    is the complete list that [generate_samples] returned for the loaded
    words, it is not empty, it goes to the repository and with the
    token of the command line, and it was saved to disk in the same
    run. *)
Theorem upload_is_complete (a : args) (file : option (list string))
    (ds : list sample) (r : string) (t : option string) :
  PushToHub ds r t ∈ (main_effects py fails a file).1 →
  ∃ lines words,
    file = Some lines
    ∧ load_words (arg_words a) lines = Ok words
    ∧ generate_samples py words (arg_n_samples a) (arg_seed a) = Ok ds
    ∧ ds ≠ []
    ∧ r = arg_output a ∧ t = arg_token a
    ∧ SaveToDisk ds ("dataset/" +:+ arg_output a)
      ∈ (main_effects py fails a file).1.
Proof.
  rewrite main_effects_eq. cbv zeta.
  destruct file as [lines|].
  2:{ cbn. intros Hin. apply elem_of_cons in Hin as [Hin | Hin];
        [discriminate Hin | by apply not_elem_of_nil in Hin]. }
  destruct (load_words (arg_words a) lines) as [e | words] eqn:Hload.
  { cbn. intros Hin. apply elem_of_cons in Hin as [Hin | Hin];
      [discriminate Hin | by apply not_elem_of_nil in Hin]. }
  destruct (generate_samples py words _ _) as [e | samples] eqn:Hgen.
  { cbn. intros Hin.
    repeat (apply elem_of_cons in Hin as [Hin | Hin]; [discriminate Hin|]).
    by apply not_elem_of_nil in Hin. }
  pose proof (push_to_hub_upload samples (arg_output a) (arg_token a) ds r t)
    as Hpush.
  destruct (push_to_hub fails samples _ _) as [tr res]. cbn [fst] in *.
  intros Hin. apply elem_of_app in Hin as [Hin | Hin].
  { repeat (apply elem_of_cons in Hin as [Hin | Hin]; [discriminate Hin|]).
    by apply not_elem_of_nil in Hin. }
  destruct (Hpush Hin) as (-> & -> & -> & Hne & Hsave).
  exists lines, words. repeat split; try done.
  apply elem_of_app. by right.
Qed.


Lemma generate_samples_nonpositive words (n seed : Z) samples :
  (n ≤ 0)%Z → generate_samples py words n seed = Ok samples → samples = [].
Proof.
  intros Hn Hgen. destruct (decide (words = [])) as [-> | Hne]; [done|].
  rewrite generate_samples_pairs, generate_pairs_nonpositive in Hgen by done.
  by injection Hgen as <-.
Qed.

(** X19. A run that asks for no samples, or for a negative number of
    them, uploads nothing and does not end normally. *)
Theorem no_upload_without_samples (a : args) (file : option (list string)) :
  (arg_n_samples a ≤ 0)%Z →
  (∀ ds r t, PushToHub ds r t ∉ (main_effects py fails a file).1)
  ∧ ∀ u, (main_effects py fails a file).2 ≠ inr u.
Proof.
  intros Hn. split.
  - intros ds r t Hin.
    destruct (main_effects_pushed a file ds r t Hin) as (words & Hgen & Hne).
    by apply generate_samples_nonpositive in Hgen.
  - intros u. rewrite main_effects_eq. cbv zeta.
    destruct file as [lines|]; [|done].
    destruct (load_words (arg_words a) lines) as [e | words]; [done|].
    destruct (generate_samples py words _ _) as [e | samples] eqn:Hgen;
      [done|].
    apply generate_samples_nonpositive in Hgen as ->; [|done].
    rewrite push_to_hub_nil.
    destruct (fails (FromList []));
      [|destruct (fails (SaveToDisk [] ("dataset/" +:+ arg_output a)))];
      done.
Qed.

Lemma load_words_admissible path lines :
  (∃ line, line ∈ lines ∧ admissible (strip line)) →
  ∃ words, load_words path lines = Ok words
           ∧ words ≠ []
           ∧ Forall (λ w, w ≠ EmptyString) words.
Proof.
  intros (line & Hin & Hadm).
  assert (strip line ≠ EmptyString) as Hne.
  { intros Hs. rewrite Hs in Hadm. destruct Hadm as [Hlen _]. cbn in Hlen. lia. }
  rewrite load_words_eq. rewrite decide_False.
  2:{ intros Hb. by apply Hne, strip_empty_iff, (proj1 (Forall_forall _ _) Hb). }
  eexists. split; [done|]. split.
  - intros Hnil.
    assert (strip line ∈ filter admissible
              (strip <$> filter (λ l, strip l ≠ EmptyString) lines)) as Hw.
    { apply list_elem_of_filter. split; [done|].
      apply list_elem_of_fmap. exists line. split; [done|].
      by apply list_elem_of_filter. }
    rewrite Hnil in Hw. by apply not_elem_of_nil in Hw.
  - apply Forall_forall. intros w [[Hlen _] _]%list_elem_of_filter ->.
    cbn in Hlen. lia.
Qed.

Lemma push_to_hub_ok samples first repo_id token :
  (∀ ev, fails ev = false) →
  samples !! 0 = Some first →
  push_to_hub fails samples repo_id token
  = ([ FromList samples;
       SaveToDisk samples ("dataset/" +:+ repo_id);
       PrintPreview samples;
       PrintSample first;
       PushToHub samples repo_id token;
       Print (nl +:+ "Dataset pushed to: https://huggingface.co/datasets/"
                 +:+ repo_id) ],
     inr ()).
Proof.
  intros Hok Hfirst. unfold push_to_hub, call, emit, mbind, eff_bind.
  rewrite !Hok, Hfirst. reflexivity.
Qed.

(** X20. When the file has a line of 3 to 20 characters after stripping,
    at least one sample is asked for and no library call raises, the
    run ends normally: it prints its four progress lines, builds the
    dataset from all [n] samples, saves it under "dataset/<repo>",
    previews it, prints the first sample, pushes the same dataset to
    the repository and reports the address. *)
Theorem main_uploads_all_samples (a : args) (lines : list string) :
  (∀ ev, fails ev = false) →
  (∃ line, line ∈ lines ∧ admissible (strip line)) →
  (0 < arg_n_samples a)%Z →
  ∃ words samples first,
    load_words (arg_words a) lines = Ok words
    ∧ generate_samples py words (arg_n_samples a) (arg_seed a) = Ok samples
    ∧ Z.of_nat (length samples) = arg_n_samples a
    ∧ samples !! 0 = Some first
    ∧ main_effects py fails a (Some lines)
      = ([ Print ("Loading words from " +:+ arg_words a +:+ "...");
           Print ("Loaded " +:+ pretty (length words) +:+ " words.");
           Print ("Generating " +:+ pretty (arg_n_samples a)
                    +:+ " samples (seed=" +:+ pretty (arg_seed a) +:+ ")...");
           Print ("Generated " +:+ pretty (length samples) +:+ " samples.");
           FromList samples;
           SaveToDisk samples ("dataset/" +:+ arg_output a);
           PrintPreview samples;
           PrintSample first;
           PushToHub samples (arg_output a) (arg_token a);
           Print (nl +:+ "Dataset pushed to: https://huggingface.co/datasets/"
                     +:+ arg_output a) ],
         inr ()).
Proof.
  intros Hok Hline Hn.
  destruct (load_words_admissible (arg_words a) lines Hline)
    as (words & Hload & Hne & Hwords).
  destruct (generate_pairs_spec py words (arg_n_samples a) (arg_seed a))
    as (_ & pairs & _ & Hgen & _ & Hlen); [done | done | lia |].
  set (samples := (λ p, build_sample p.1 p.2) <$> pairs).
  assert (generate_samples py words (arg_n_samples a) (arg_seed a)
          = Ok samples) as Hsamples
    by by rewrite generate_samples_pairs, Hgen.
  assert (length samples = Z.to_nat (arg_n_samples a)) as Hsize
    by by unfold samples; rewrite length_fmap.
  destruct (lookup_lt_is_Some_2 samples 0) as [first Hfirst]; [lia|].
  exists words, samples, first.
  split; [done|]. split; [done|]. split; [lia|]. split; [done|].
  rewrite main_effects_eq. cbv zeta. rewrite Hload. unfold Ok in *.
  rewrite Hsamples.
  by rewrite (push_to_hub_ok samples first _ _ Hok Hfirst).
Qed.
End MainFacts.

Lemma upload_is_complete_witness :
  ∃ lines words,
    Some example_file = Some lines
    ∧ load_words (arg_words example_args) lines = Ok words
    ∧ generate_samples (G := N) ascending words
        (arg_n_samples example_args) (arg_seed example_args)
      = Ok [build_sample "straw" "a"]
    ∧ [build_sample "straw" "a"] ≠ []
    ∧ "me/letters" = arg_output example_args
    ∧ None = arg_token example_args
    ∧ SaveToDisk [build_sample "straw" "a"]
        ("dataset/" +:+ arg_output example_args)
      ∈ (main_effects (G := N) ascending (λ _, false) example_args
           (Some example_file)).1.
Proof.
  apply (upload_is_complete (G := N) ascending (λ _, false) example_args
           (Some example_file) [build_sample "straw" "a"] "me/letters" None).
  apply list_elem_of_In. vm_compute.
  repeat (first [left; reflexivity | right]).
Defined.

Lemma no_upload_without_samples_witness :
  (∀ ds r t,
     PushToHub ds r t
     ∉ (main_effects (G := N) ascending (λ _, false)
          {| arg_words := "words.txt"; arg_output := "me/letters";
             arg_n_samples := 0; arg_seed := 42; arg_token := None |}
          (Some example_file)).1)
  ∧ ∀ u,
      (main_effects (G := N) ascending (λ _, false)
         {| arg_words := "words.txt"; arg_output := "me/letters";
            arg_n_samples := 0; arg_seed := 42; arg_token := None |}
         (Some example_file)).2 ≠ inr u.
Proof.
  apply (no_upload_without_samples (G := N) ascending (λ _, false)
           {| arg_words := "words.txt"; arg_output := "me/letters";
              arg_n_samples := 0; arg_seed := 42; arg_token := None |}
           (Some example_file)).
  cbn. lia.
Defined.

Lemma main_uploads_all_samples_witness :
  ∃ words samples first,
    load_words (arg_words example_args) example_file = Ok words
    ∧ generate_samples (G := N) ascending words
        (arg_n_samples example_args) (arg_seed example_args) = Ok samples
    ∧ Z.of_nat (length samples) = arg_n_samples example_args
    ∧ samples !! 0 = Some first
    ∧ main_effects (G := N) ascending (λ _, false) example_args
        (Some example_file)
      = ([ Print ("Loading words from " +:+ arg_words example_args +:+ "...");
           Print ("Loaded " +:+ pretty (length words) +:+ " words.");
           Print ("Generating " +:+ pretty (arg_n_samples example_args)
                    +:+ " samples (seed=" +:+ pretty (arg_seed example_args)
                    +:+ ")...");
           Print ("Generated " +:+ pretty (length samples) +:+ " samples.");
           FromList samples;
           SaveToDisk samples ("dataset/" +:+ arg_output example_args);
           PrintPreview samples;
           PrintSample first;
           PushToHub samples (arg_output example_args)
             (arg_token example_args);
           Print (nl +:+ "Dataset pushed to: https://huggingface.co/datasets/"
                     +:+ arg_output example_args) ],
         inr ()).
Proof.
  apply (main_uploads_all_samples (G := N) ascending (λ _, false)
           example_args example_file).
  - reflexivity.
  - exists ("straw" +:+ nl). split; [left | by vm_compute; lia].
  - cbn. lia.
Defined.

(** * The order of the draws *)

Section RecordingFacts.
Context {G : Type} `{!RandomGen G} (py : process).

Lemma shuffle_from_recording {A} i : ∀ (x : list A) (g : G) log,
  shuffle_from i x (g, log)
  = match shuffle_from i x g with
    | inl e => inl e
    | inr (x', g') => inr (x', (g', log ++ (DrawBelow <$> shuffle_bounds i)))
    end.
Proof.
  induction i as [|i IH]; intros x g log.
  { cbn. by rewrite app_nil_r. }
  cbn [shuffle_from shuffle_bounds]. rewrite !rand_bind_eq.
  unfold below. cbn [randbelow recording recording_below].
  destruct (randbelow (S (S i)) g) as [j g1]. unfold Ok.
  rewrite IH.
  destruct (shuffle_from i (swap x (S i) j) g1) as [e | [x' g']]; [done|].
  by rewrite <- app_assoc.
Qed.

Lemma choice_recording {A} (seq : list A) (g : G) log :
  choice seq (g, log)
  = match choice seq g with
    | inl e => inl e
    | inr (a, g') => inr (a, (g', log ++ [DrawBelow (length seq)]))
    end.
Proof.
  unfold choice. destruct (decide (length seq = 0)); [done|].
  rewrite !rand_bind_eq. unfold below.
  cbn [randbelow recording recording_below].
  destruct (randbelow (length seq) g) as [j g1]. unfold Ok.
  by destruct (seq !! j).
Qed.

Lemma pick_recording word (g : G) log :
  pick_letter_for_word py word (g, log)
  = match pick_letter_for_word py word g with
    | inl e => inl e
    | inr (letter, g') =>
        inr (letter, (g', log ++ [DrawFloat; DrawBelow (pick_bound py word g)]))
    end.
Proof.
  unfold pick_letter_for_word, pick_bound, biased.
  rewrite !rand_bind_eq. unfold random.
  cbn [next_float recording recording_float].
  destruct (next_float g) as [r g1]. unfold Ok. cbn [fst].
  destruct (lt_0_8 r); rewrite choice_recording;
    match goal with |- context [choice ?s g1] =>
      destruct (choice s g1) as [e | [a g']] end;
    try done; rewrite <- app_assoc; cbn [app]; by rewrite ?length_fmap.
Qed.

Lemma draw_samples_recording pool : ∀ (g : G) log,
  draw_samples py pool (g, log)
  = match draw_samples py pool g with
    | inl e => inl e
    | inr (samples, g') => inr (samples, (g', log ++ letter_draws py pool g))
    end.
Proof.
  induction pool as [|w pool IH]; intros g log.
  { cbn. by rewrite app_nil_r. }
  unfold draw_samples in *. rewrite !rand_mapM_cons, !draw_sample_eq.
  rewrite pick_recording. cbn [letter_draws].
  destruct (pick_letter_for_word py w g) as [e | [letter g1]]; [done|].
  rewrite IH.
  destruct (mapM (draw_sample py) pool g1) as [e | [samples g2]]; [done|].
  by rewrite <- app_assoc.
Qed.

Lemma generate_samples_log_eq words (n seed : Z) :
  generate_samples_log py words n seed
  = if decide (length words = 0) then Err ZeroDivisionError else
    let pool := repeat_list words (n `div` Z.of_nat (length words) + 1) in
    match shuffle pool (seeded seed : G) with
    | inl e => inl e
    | inr (pool', g1) =>
        match draw_samples py (slice_to pool' n) g1 with
        | inl e => inl e
        | inr (samples, _) =>
            inr (samples,
                 (DrawBelow <$> shuffle_bounds (length pool - 1))
                 ++ letter_draws py (slice_to pool' n) g1)
        end
    end.
Proof.
  unfold generate_samples_log. destruct (decide (length words = 0)); [done|].
  cbv zeta. rewrite rand_bind_eq. unfold shuffle.
  cbn [seeded recording]. rewrite shuffle_from_recording.
  destruct (shuffle_from _ _ (seeded seed)) as [e | [pool' g1]]; [done|].
  rewrite draw_samples_recording.
  by destruct (draw_samples py (slice_to pool' n) g1) as [e | [samples g2]].
Qed.

Lemma letter_draws_shape pool : ∀ (g : G) samples g',
  draw_samples py pool g = Ok (samples, g') →
  ∃ bounds,
    letter_draws py pool g = mjoin ((λ b, [DrawFloat; DrawBelow b]) <$> bounds)
    ∧ Forall2 (λ w b, b = 26
                      ∨ b = size (list_to_set (chars (lower w)) : gset ascii))
              pool bounds.
Proof.
  induction pool as [|w pool IH]; intros g samples g' Hdraw.
  { exists []. by split. }
  unfold draw_samples in *. rewrite rand_mapM_cons, draw_sample_eq in Hdraw.
  cbn [letter_draws].
  destruct (pick_letter_for_word py w g) as [e | [letter g1]]; [done|].
  destruct (mapM (draw_sample py) pool g1) as [e | [ss g2]] eqn:Hrest; [done|].
  destruct (IH g1 ss g2 Hrest) as (bounds & Hlog & Hb).
  exists (pick_bound py w g :: bounds). split; [by cbn; rewrite Hlog|].
  constructor; [|done]. unfold pick_bound.
  destruct (biased g); [right | by left].
  by rewrite (set_order_perm py).
Qed.
End RecordingFacts.

Section DrawOrder.
Context {G : Type} `{!RandomGen G} (py : process).

(** X21. The generator is consumed in a fixed order.  For a non-empty
    list of non-empty words and [n >= 0], a run first makes the draws of
    the shuffle, one integer below [m], [m - 1], ..., [2] for a pool of
    [m = (n / |words| + 1) * |words|] entries, and then, for each of
    the [n] samples in turn, one float followed by one integer below
    either 26 or the number of distinct lower-cased characters of a
    word of the list; recording the draws does not change the samples. *)
Theorem draws_in_order (words : list string) (n seed : Z) :
  words ≠ [] →
  Forall (λ w, w ≠ EmptyString) words →
  (0 ≤ n)%Z →
  let m := Z.to_nat (n `div` Z.of_nat (length words) + 1) * length words in
  ∃ samples bounds,
    generate_samples_log py words n seed
    = Ok (samples,
          (DrawBelow <$> shuffle_bounds (m - 1))
          ++ mjoin ((λ b, [DrawFloat; DrawBelow b]) <$> bounds))
    ∧ generate_samples py words n seed = Ok samples
    ∧ Z.of_nat (length bounds) = n
    ∧ Forall (λ b, b = 26
                   ∨ ∃ w, w ∈ words
                          ∧ b = size (list_to_set (chars (lower w))
                                        : gset ascii))
             bounds.
Proof.
  intros Hne Hwords Hn m.
  assert (0 < length words) as Hlen by (destruct words; [done | cbn; lia]).
  rewrite generate_samples_log_eq. unfold generate_samples.
  rewrite !decide_False by lia. cbv zeta.
  set (k := (n `div` Z.of_nat (length words) + 1)%Z).
  rewrite repeat_list_length. fold m.
  destruct (shuffle_spec (repeat_list words k) (seeded seed))
    as (pool & g1 & Hsh & Hperm).
  unfold eval. rewrite rand_bind_eq, Hsh. unfold Ok.
  assert (∀ w, w ∈ slice_to pool n → w ∈ words) as Hsub.
  { intros w Hw%slice_to_elem. rewrite Hperm in Hw.
    by apply elem_of_repeat_list in Hw. }
  assert (length (slice_to pool n) = Z.to_nat n) as Hsize.
  { unfold slice_to. rewrite decide_True by done.
    rewrite length_take, Hperm, repeat_list_length.
    pose proof (pool_covers (length words) n Hlen Hn). subst k. lia. }
  destruct (draw_pairs_ok py (slice_to pool n) g1) as (pairs & g2 & Hpairs & _).
  { apply Forall_forall. intros w Hw.
    by apply (proj1 (Forall_forall _ _) Hwords), Hsub. }
  pose proof (draw_samples_pairs py (slice_to pool n) g1) as Hdraw.
  rewrite Hpairs in Hdraw. unfold Ok in Hdraw.
  destruct (letter_draws_shape py (slice_to pool n) g1 _ _ Hdraw)
    as (bounds & Hlog & Hb).
  rewrite Hdraw, Hlog.
  exists ((λ p, build_sample p.1 p.2) <$> pairs), bounds.
  split; [done|]. split; [done|].
  split; [apply Forall2_length in Hb; lia|].
  apply Forall_forall. intros b Hin.
  apply list_elem_of_lookup in Hin as [i Hi].
  destruct (Forall2_lookup_r _ _ _ _ _ Hb Hi) as (w & Hw & [-> | ->]);
    [by left|].
  right. exists w. split; [|done].
  by apply Hsub, list_elem_of_lookup_2 with i.
Qed.
End DrawOrder.

Lemma draws_in_order_witness :
  ∃ samples bounds,
    generate_samples_log (G := N) ascending ["straw"; "Mississippi"] 3 42
    = Ok (samples,
          (DrawBelow <$> [4; 3; 2])
          ++ mjoin ((λ b, [DrawFloat; DrawBelow b]) <$> bounds))
    ∧ generate_samples (G := N) ascending ["straw"; "Mississippi"] 3 42
      = Ok samples
    ∧ Z.of_nat (length bounds) = 3%Z
    ∧ Forall (λ b, b = 26
                   ∨ ∃ w, w ∈ ["straw"; "Mississippi"]
                          ∧ b = size (list_to_set (chars (lower w))
                                        : gset ascii))
             bounds.
Proof.
  apply (draws_in_order (G := N) ascending ["straw"; "Mississippi"] 3 42).
  - discriminate.
  - repeat constructor; discriminate.
  - lia.
Defined.

